(** * crawler/ast_ts.ts: the TypeScript source-to-AST normalizer

    A shallow embedding of [crawler/ast_ts.ts] and the properties its
    specification states about it.  The file holds two near-identical copies
    of the program; both are embedded.  The parser library (ts-morph), the
    file system ([fs]) and [path] are external: they appear as the query
    surface the program reads, never as code of their own. *)

From Stdlib Require Import ZArith Ascii String FunInd.
From stdpp Require Import gmap strings list fin_maps.

Local Open Scope Z_scope.

(** ** Values thrown by the host *)

(** What a [catch (error)] clause may receive: an [Error] object, or any other
    value, kept as the string [String(error)] yields. *)
Inductive Thrown :=
| ErrorObject (name message : string)
| NonError (str : string).

(** [error instanceof Error ? error.message : String(error)] *)
Definition error_message (error : Thrown) : string :=
  match error with
  | ErrorObject _ message => message
  | NonError str => str
  end.

(** [`${error}`], that is [String(error)]; for an [Error] object this is
    [Error.prototype.toString]. *)
Definition String_of (error : Thrown) : string :=
  match error with
  | ErrorObject name message =>
      if bool_decide (name = "") then message
      else if bool_decide (message = "") then name
      else name +:+ ": " +:+ message
  | NonError str => str
  end.

(** ** The ts-morph query surface *)

Module ts_morph.

(** [SyntaxKind]: the kinds the program tests for, and every other one. *)
Inductive SyntaxKind :=
| EndOfFileToken | SemicolonToken | CommaToken
| Identifier | StringLiteral | NumericLiteral | TrueKeyword | FalseKeyword
| ClassDeclaration | FunctionDeclaration | MethodDeclaration | Constructor
| InterfaceDeclaration | VariableDeclaration | PropertyDeclaration
| OtherKind (kindName : string).

#[global] Instance SyntaxKind_eq_dec : EqDecision SyntaxKind.
Proof. solve_decision. Defined.

(** [node.getKindName()] *)
Definition kindName (k : SyntaxKind) : string :=
  match k with
  | EndOfFileToken => "EndOfFileToken"
  | SemicolonToken => "SemicolonToken"
  | CommaToken => "CommaToken"
  | Identifier => "Identifier"
  | StringLiteral => "StringLiteral"
  | NumericLiteral => "NumericLiteral"
  | TrueKeyword => "TrueKeyword"
  | FalseKeyword => "FalseKeyword"
  | ClassDeclaration => "ClassDeclaration"
  | FunctionDeclaration => "FunctionDeclaration"
  | MethodDeclaration => "MethodDeclaration"
  | Constructor => "Constructor"
  | InterfaceDeclaration => "InterfaceDeclaration"
  | VariableDeclaration => "VariableDeclaration"
  | PropertyDeclaration => "PropertyDeclaration"
  | OtherKind kindName => kindName
  end.

(** A [Type] of the type checker, as far as the program queries it. *)
Record Type_ := { isVoid : bool; type_getText : string }.

(** An initializer expression: its kind and its source text. *)
Record Expression := { expr_getKind : SyntaxKind; expr_getText : string }.

(** A [ParameterDeclaration]; a type node or initializer is only ever asked
    for its source text, which stands for it. *)
Record ParameterDeclaration := {
  param_getName : string;
  param_getTypeNode : option string;
  param_getInitializer : option string;
}.

(** A [JSDoc] block. *)
Record JSDoc := { getDescription : option string }.

(** A syntax node.  Every accessor the program calls is a field; the
    program reads an accessor only under the type guard of the kind that
    has it.  A clause or type node that is only asked for [getText()] is
    its text.  [getReturnTypeNode] is the explicit return type annotation,
    [getReturnType] the return type the checker resolves (declared or
    inferred). *)
#[local] Unset Elimination Schemes.
Inductive Node := MkNode {
  getKind : SyntaxKind;
  getStartLineNumber : Z;
  getEndLineNumber : Z;
  getText : string;
  getChildren : list Node;
  getName : option string;
  getJsDocs : list JSDoc;
  class_getExtends : option string;
  getImplements : list string;
  getParameters : list ParameterDeclaration;
  getReturnTypeNode : option string;
  getReturnType : Type_;
  interface_getExtends : list string;
  getTypeNode : option string;
  getInitializer : option Expression;
  hasModifier : string → bool;
  isStatic : bool;
  isReadonly : bool;
}.
#[local] Set Elimination Schemes.

Definition getKindName (node : Node) : string := kindName (getKind node).

Definition has_kind (k : SyntaxKind) (node : Node) : bool :=
  bool_decide (getKind node = k).

(** The kind guards [Node.isX(node)]: each compares [getKind()]. *)
Definition isIdentifier := has_kind Identifier.
Definition isClassDeclaration := has_kind ClassDeclaration.
Definition isFunctionDeclaration := has_kind FunctionDeclaration.
Definition isMethodDeclaration := has_kind MethodDeclaration.
Definition isConstructorDeclaration := has_kind Constructor.
Definition isInterfaceDeclaration := has_kind InterfaceDeclaration.
Definition isVariableDeclaration := has_kind VariableDeclaration.
Definition isPropertyDeclaration := has_kind PropertyDeclaration.

Definition isStringLiteral (e : Expression) : bool :=
  bool_decide (expr_getKind e = StringLiteral).
Definition isNumericLiteral (e : Expression) : bool :=
  bool_decide (expr_getKind e = NumericLiteral).
Definition isTrueLiteral (e : Expression) : bool :=
  bool_decide (expr_getKind e = TrueKeyword).
Definition isFalseLiteral (e : Expression) : bool :=
  bool_decide (expr_getKind e = FalseKeyword).

(** [Node.isSignaturedDeclaration]: the kinds with the
    [SignaturedDeclaration] mixin. *)
Definition isSignaturedDeclaration (node : Node) : bool :=
  match getKind node with
  | FunctionDeclaration | MethodDeclaration | Constructor => true
  | OtherKind kindName =>
      bool_decide (kindName ∈
        ["ArrowFunction"; "CallSignature"; "ConstructorType";
         "ConstructSignature"; "FunctionExpression"; "FunctionType";
         "GetAccessor"; "JSDocFunctionType"; "MethodSignature"; "SetAccessor"])
  | _ => false
  end.

(** A [SourceFile]. *)
Record SourceFile := {
  getFilePath : string;
  sf_getEndLineNumber : Z;
  getStatements : list Node;
}.

(** A node with no children and nothing to report from any accessor. *)
Definition leaf (k : SyntaxKind) (startLine endLine : Z) (text : string) : Node :=
  {| getKind := k; getStartLineNumber := startLine; getEndLineNumber := endLine;
     getText := text; getChildren := []; getName := None; getJsDocs := [];
     class_getExtends := None; getImplements := []; getParameters := [];
     getReturnTypeNode := None;
     getReturnType := {| isVoid := true; type_getText := "void" |};
     interface_getExtends := []; getTypeNode := None; getInitializer := None;
     hasModifier := λ _, false; isStatic := false; isReadonly := false |}.

Definition with_children (cs : list Node) (n : Node) : Node :=
  {| getKind := getKind n; getStartLineNumber := getStartLineNumber n;
     getEndLineNumber := getEndLineNumber n; getText := getText n;
     getChildren := cs; getName := getName n; getJsDocs := getJsDocs n;
     class_getExtends := class_getExtends n; getImplements := getImplements n;
     getParameters := getParameters n;
     getReturnTypeNode := getReturnTypeNode n; getReturnType := getReturnType n;
     interface_getExtends := interface_getExtends n;
     getTypeNode := getTypeNode n; getInitializer := getInitializer n;
     hasModifier := hasModifier n; isStatic := isStatic n;
     isReadonly := isReadonly n |}.

Definition with_signature (ps : list ParameterDeclaration)
    (annotation : option string) (resolved : Type_) (n : Node) : Node :=
  {| getKind := getKind n; getStartLineNumber := getStartLineNumber n;
     getEndLineNumber := getEndLineNumber n; getText := getText n;
     getChildren := getChildren n; getName := getName n; getJsDocs := getJsDocs n;
     class_getExtends := class_getExtends n; getImplements := getImplements n;
     getParameters := ps;
     getReturnTypeNode := annotation; getReturnType := resolved;
     interface_getExtends := interface_getExtends n;
     getTypeNode := getTypeNode n; getInitializer := getInitializer n;
     hasModifier := hasModifier n; isStatic := isStatic n;
     isReadonly := isReadonly n |}.


End ts_morph.
Import ts_morph.

(** ** The simplified AST *)

(** A value stored under an attribute key. *)
Inductive AttrValue :=
| AttrString (s : string)
| AttrBool (b : bool)
| AttrStrings (l : list string)
| AttrParameters (l : list (gmap string string)).

(** [interface ASTNode]; an optional field is an [option]. *)
#[local] Unset Elimination Schemes.
Inductive ASTNode := MkASTNode {
  nodeType : string;
  name : option string;
  startLine : option Z;
  endLine : option Z;
  text : option string;
  docComment : option string;
  children : option (list ASTNode);
  attributes : option (gmap string AttrValue);
}.
#[local] Set Elimination Schemes.

(** Assignments to one field of an [ASTNode]. *)
Definition set_name (v : string) (n : ASTNode) : ASTNode :=
  MkASTNode (nodeType n) (Some v) (startLine n) (endLine n) (text n)
    (docComment n) (children n) (attributes n).
Definition set_docComment (v : string) (n : ASTNode) : ASTNode :=
  MkASTNode (nodeType n) (name n) (startLine n) (endLine n) (text n)
    (Some v) (children n) (attributes n).
Definition set_children (v : list ASTNode) (n : ASTNode) : ASTNode :=
  MkASTNode (nodeType n) (name n) (startLine n) (endLine n) (text n)
    (docComment n) (Some v) (attributes n).
Definition set_attributes (v : gmap string AttrValue) (n : ASTNode) : ASTNode :=
  MkASTNode (nodeType n) (name n) (startLine n) (endLine n) (text n)
    (docComment n) (children n) (Some v).

(** ** String helpers of the JavaScript runtime

    A JavaScript string is held as its UTF-8 encoding, one [ascii] for each
    byte. *)

Definition newline : string := String "010"%char "".

(** [Array.prototype.join] *)
Definition join (sep : string) (l : list string) : string := String.concat sep l.

(** The string with the given bytes. *)
Definition bytes (l : list nat) : string :=
  string_of_list_ascii (ascii_of_nat <$> l).

(** The code points [String.prototype.trim] strips: WhiteSpace and
    LineTerminator of ECMAScript, each as its UTF-8 encoding. *)
Definition white_space : list string :=
  bytes <$>
    [ [9]; [10]; [11]; [12]; [13]; [32];       (* TAB LF VT FF CR SP *)
      [194; 160];                              (* U+00A0 *)
      [225; 154; 128];                         (* U+1680 *)
      [226; 128; 128]; [226; 128; 129]; [226; 128; 130]; [226; 128; 131];
      [226; 128; 132]; [226; 128; 133]; [226; 128; 134]; [226; 128; 135];
      [226; 128; 136]; [226; 128; 137]; [226; 128; 138];  (* U+2000-U+200A *)
      [226; 128; 168]; [226; 128; 169];        (* U+2028 U+2029 *)
      [226; 128; 175];                         (* U+202F *)
      [226; 129; 159];                         (* U+205F *)
      [227; 128; 128];                         (* U+3000 *)
      [239; 187; 191] ]%nat.                   (* U+FEFF *)

(** [strip ws s]: [s] without its longest prefix made of members of [ws],
    each of one, two or three bytes. *)
Function strip (ws : list string) (s : string) {struct s} : string :=
  match s with
  | EmptyString => EmptyString
  | String a s1 =>
      if bool_decide (String a "" ∈ ws) then strip ws s1
      else
        match s1 with
        | EmptyString => s
        | String b s2 =>
            if bool_decide (String a (String b "") ∈ ws) then strip ws s2
            else
              match s2 with
              | EmptyString => s
              | String c s3 =>
                  if bool_decide (String a (String b (String c "")) ∈ ws)
                  then strip ws s3
                  else s
              end
        end
  end.

(** [String.prototype.trimStart] *)
Definition trim_start (s : string) : string := strip white_space s.

(** [String.prototype.trimEnd]: the same from the other end, where each
    encoding reads backwards. *)
Definition trim_end (s : string) : string :=
  String.rev (strip (String.rev <$> white_space) (String.rev s)).

(** [String.prototype.trim] *)
Definition trim (s : string) : string := trim_end (trim_start s).

(** A string is falsy exactly when it is empty. *)
Definition truthy (s : string) : bool := negb (bool_decide (s = "")).

(** ** The node normalizer

    The two copies of the normalizer differ in two names only: the first calls
    the mixin guards [Node.isNameable] and [Node.isJSDocable], the second
    [Node.isNameableNode] and [Node.isJSDocableNode].  The section is the
    text of the normalizer over two guards that return, and over
    [path.basename]: the first copy, on a ts-morph that has the names it
    calls.  The second copy, whose names may be missing, is written out in
    its module below. *)

Section Normalizer.

Variable isNameable : Node → bool.
Variable isJSDocable : Node → bool.
Variable basename : string → string.

Definition shouldSkipNode (node : Node) : bool :=
  let skipKinds := [EndOfFileToken; SemicolonToken; CommaToken] in
  bool_decide (getKind node ∈ skipKinds).

(** [node.getName] is a method of every nameable node, so the second
    conjunct of the guard holds whenever the first does. *)
Definition getNodeName (node : Node) : option string :=
  if isNameable node then getName node
  else if isIdentifier node then Some (getText node)
  else None.

Definition getNodeDocComment (node : Node) : option string :=
  if isJSDocable node then
    let jsDocs := getJsDocs node in
    if bool_decide (0 < length jsDocs)%nat then
      Some (trim (join newline (omap getDescription jsDocs)))
    else None
  else None.

Definition paramInfo (param : ParameterDeclaration) : gmap string string :=
  let paramInfo : gmap string string := {[ "name" := param_getName param ]} in
  let paramInfo :=
    match param_getTypeNode param with
    | Some typeNode => <["type" := typeNode]> paramInfo
    | None => paramInfo
    end in
  let paramInfo :=
    match param_getInitializer param with
    | Some initializer => <["default" := initializer]> paramInfo
    | None => paramInfo
    end in
  paramInfo.

Definition getNodeAttributes (node : Node) : gmap string AttrValue :=
  let attributes : gmap string AttrValue := ∅ in
  (* Class declarations *)
  let attributes :=
    if isClassDeclaration node then
      let attributes :=
        match class_getExtends node with
        | Some extendsClause => <["extends" := AttrString extendsClause]> attributes
        | None => attributes
        end in
      let implementsClauses := getImplements node in
      if bool_decide (0 < length implementsClauses)%nat then
        <["implements" := AttrStrings implementsClauses]> attributes
      else attributes
    else attributes in
  (* Function, method or constructor declarations *)
  let attributes :=
    if isFunctionDeclaration node || isMethodDeclaration node
       || isConstructorDeclaration node then
      let parameters := getParameters node in
      let attributes :=
        if bool_decide (0 < length parameters)%nat then
          <["parameters" := AttrParameters (paramInfo <$> parameters)]> attributes
        else attributes in
      if isSignaturedDeclaration node then
        let returnType := getReturnType node in
        (* a [Type] object is always truthy *)
        if negb (isVoid returnType) then
          <["returnType" := AttrString (type_getText returnType)]> attributes
        else attributes
      else attributes
    else attributes in
  (* Interface declarations *)
  let attributes :=
    if isInterfaceDeclaration node then
      let extendsNodes := interface_getExtends node in
      if bool_decide (0 < length extendsNodes)%nat then
        <["extends" := AttrStrings extendsNodes]> attributes
      else attributes
    else attributes in
  (* Variable declarations *)
  let attributes :=
    if isVariableDeclaration node then
      let attributes :=
        match getTypeNode node with
        | Some typeNode => <["type" := AttrString typeNode]> attributes
        | None => attributes
        end in
      match getInitializer node with
      | Some initializer =>
          let attributes := <["hasInitializer" := AttrBool true]> attributes in
          if isStringLiteral initializer || isNumericLiteral initializer
             || isTrueLiteral initializer || isFalseLiteral initializer then
            <["initializerValue" := AttrString (expr_getText initializer)]> attributes
          else attributes
      | None => attributes
      end
    else attributes in
  (* Property declarations *)
  let attributes :=
    if isPropertyDeclaration node then
      let attributes :=
        match getTypeNode node with
        | Some typeNode => <["type" := AttrString typeNode]> attributes
        | None => attributes
        end in
      let attributes :=
        if hasModifier node "private" then
          <["visibility" := AttrString "private"]> attributes
        else if hasModifier node "protected" then
          <["visibility" := AttrString "protected"]> attributes
        else if hasModifier node "public" then
          <["visibility" := AttrString "public"]> attributes
        else attributes in
      let attributes :=
        if isStatic node then <["static" := AttrBool true]> attributes
        else attributes in
      if isReadonly node then <["readonly" := AttrBool true]> attributes
      else attributes
    else attributes in
  attributes.

(** [addNodeSpecificDetails] assigns fields of [astNode]; it is given the
    node and returns it with the assignments made. *)
Definition addNodeSpecificDetails (node : Node) (astNode : ASTNode) : ASTNode :=
  let astNode :=
    match getNodeName node with
    | Some name => if truthy name then set_name name astNode else astNode
    | None => astNode
    end in
  let astNode :=
    match getNodeDocComment node with
    | Some docComment =>
        if truthy docComment then set_docComment docComment astNode else astNode
    | None => astNode
    end in
  let attributes := getNodeAttributes node in
  if bool_decide (0 < size attributes)%nat then set_attributes attributes astNode
  else astNode.

(** [parentASTNode.children.push(astNode)], after creating the array when
    the field is missing. *)
Definition push_child (astNode : ASTNode) (parentASTNode : ASTNode) : ASTNode :=
  set_children (default [] (children parentASTNode) ++ [astNode]) parentASTNode.

(** [processNode] and [processNodeChildren] mutate the AST node they are
    given; here each takes that node and returns it as it is after the call.
    The source pushes [astNode] into its parent and fills its children
    afterwards, through the shared reference; the parent therefore ends up
    holding the filled node, which is what is pushed here. *)
Fixpoint processNode (node : Node) (parentASTNode : ASTNode) : ASTNode :=
  if shouldSkipNode node then parentASTNode
  else
    let nodeKind := getKindName node in
    let astNode :=
      MkASTNode nodeKind None (Some (getStartLineNumber node))
        (Some (getEndLineNumber node)) None None None None in
    let astNode := addNodeSpecificDetails node astNode in
    let astNode :=
      (fix processNodeChildren (cs : list Node) (astNode : ASTNode) : ASTNode :=
         match cs with
         | [] => astNode
         | child :: cs => processNodeChildren cs (processNode child astNode)
         end) (getChildren node) astNode in
    push_child astNode parentASTNode.

(** The [for ... of] loop over a list of nodes, each handed to
    [processNode] with the same parent. *)
Definition processAll (nodes : list Node) (astNode : ASTNode) : ASTNode :=
  foldl (λ astNode child, processNode child astNode) astNode nodes.

Definition processNodeChildren (node : Node) (astNode : ASTNode) : ASTNode :=
  processAll (getChildren node) astNode.

Definition createNodeFromSourceFile (sourceFile : SourceFile) : ASTNode :=
  let fileNode :=
    MkASTNode "SourceFile" (Some (basename (getFilePath sourceFile)))
      (Some 1) (Some (sf_getEndLineNumber sourceFile)) None None (Some []) None in
  processAll (getStatements sourceFile) fileNode.

(** The AST node [processNode] starts from. *)
Definition initial (node : Node) : ASTNode :=
  MkASTNode (getKindName node) None (Some (getStartLineNumber node))
    (Some (getEndLineNumber node)) None None None None.

(** The AST node a kept syntax node ends up as: [astNode] of [processNode]
    once [processNodeChildren] has returned. *)
Definition normalize (node : Node) : ASTNode :=
  processNodeChildren node (addNodeSpecificDetails node (initial node)).

(** The nodes of a list that [shouldSkipNode] lets through. *)
Definition kept (nodes : list Node) : list Node :=
  filter (λ node, shouldSkipNode node = false) nodes.

End Normalizer.

(** ** Effects: a trace of host calls, and exceptions *)

(** The calls the program makes to the host. *)
Inductive Event :=
| Access (path : string)              (* fs.promises.access *)
| ExistsSync (path : string)          (* fs.existsSync *)
| StatSync (path : string)            (* fs.statSync *)
| Readdir (path : string)             (* fs.promises.readdir *)
| AddSourceFileAtPath (path : string) (* project.addSourceFileAtPath *)
| ConsoleError (message : string).    (* console.error *)

#[global] Instance Event_eq_dec : EqDecision Event.
Proof. solve_decision. Defined.

(** How a computation ends. *)
Inductive Completion (A : Type) :=
| Normal (a : A)
| Throw (error : Thrown).
Arguments Normal {A} a.
Arguments Throw {A} error.

(** A computation: the host calls it made, in order, and how it ended.  An
    [await] is the point where the awaited computation runs. *)
Record Eff (A : Type) := MkEff { trace : list Event; completion : Completion A }.
Arguments MkEff {A} trace completion.
Arguments trace {A} e.
Arguments completion {A} e.

#[global] Instance Eff_ret : MRet Eff := λ A a, MkEff [] (Normal a).

#[global] Instance Eff_bind : MBind Eff := λ A B f m,
  match completion m with
  | Normal a => MkEff (trace m ++ trace (f a)) (completion (f a))
  | Throw error => MkEff (trace m) (Throw error)
  end.

Definition throw {A} (error : Thrown) : Eff A := MkEff [] (Throw error).

(** [host ev c]: a host call [ev] that completes as [c]. *)
Definition host {A} (ev : Event) (c : Completion A) : Eff A := MkEff [ev] c.

(** [try { m } catch (error) { handler error }] *)
Definition try_catch {A} (m : Eff A) (handler : Thrown → Eff A) : Eff A :=
  match completion m with
  | Normal a => m
  | Throw error => MkEff (trace m ++ trace (handler error)) (completion (handler error))
  end.

(** ** The host: [fs], [path] and the ts-morph entry points *)

(** A directory as [readdir(..., {withFileTypes: true})] reports it: the
    entries, each with its name and type, a directory entry together with what
    [readdir] of the joined path reports in turn; or the error [readdir]
    rejects with. *)
#[local] Unset Elimination Schemes.
Inductive Dirent :=
| DirentFile (name : string)
| DirentDirectory (name : string) (contents : Listing)
| DirentOther (name : string)
with Listing :=
| Entries (entries : list Dirent)
| ReaddirError (error : Thrown).
#[local] Set Elimination Schemes.

Definition dirent_name (entry : Dirent) : string :=
  match entry with
  | DirentFile name | DirentDirectory name _ | DirentOther name => name
  end.

(** [fs.Stats] *)
Record Stats := { stats_isFile : bool; stats_isDirectory : bool }.

(** A mixin type guard of [ts_morph.Node] under one of its names.  The
    releases of ts-morph do not export the same names: a call of a name the
    installed release lacks throws a [TypeError]. *)
Inductive Guard :=
| Exported (test : Node → bool)
| Missing (error : Thrown).

(** The host.  The first copy is embedded for a release of ts-morph that has
    what that copy calls: [Node.isNameable], [Node.isJSDocable] and
    [Type.isVoid].  The two names that only the second copy calls,
    [Node.isNameableNode] and [Node.isJSDocableNode], are exported or
    missing. *)
Record Env := {
  (* fs *)
  access : string → option Thrown;      (* [None]: the promise resolves *)
  existsSync : string → bool;
  statSync : string → Completion Stats;
  readdir : string → Listing;
  (* path *)
  path_join : string → string → string;
  path_basename : string → string;
  path_extname : string → string;
  (* ts-morph *)
  addSourceFileAtPath : string → Completion SourceFile;
  isNameable : Node → bool;
  isJSDocable : Node → bool;
  isNameableNode : Guard;
  isJSDocableNode : Guard;
}.

(** [guard(node)] *)
Definition call_guard (guard : Guard) (node : Node) : Eff bool :=
  match guard with
  | Exported test => mret (test node)
  | Missing error => throw error
  end.

(** The outcome for one file: [ASTNode | { error: string }]. *)
Inductive FileResult :=
| Success (ast : ASTNode)
| ErrorEnvelope (error : string).

(** A value of the object [parseDirectory] returns.  The declared type admits
    only file results; the second copy also stores a bare string under the
    key [error]. *)
Inductive Value :=
| FileValue (r : FileResult)
| StringValue (s : string).

(** [results[key] = value] on the plain object [results], which is held as
    the map of its own properties.  The key [__proto__] names the accessor
    that [Object.prototype] defines: assigning an object to it replaces the
    prototype of [results] and creates no property. *)
Definition assign (key : string) (value : Value) (results : gmap string Value)
    : gmap string Value :=
  if bool_decide (key = "__proto__") then results
  else <[key := value]> results.

(** [String.prototype.endsWith] *)
Definition endsWith (s suffix : string) : bool :=
  String.prefix (String.rev suffix) (String.rev s).

(** [Array.prototype.slice(from, to)] for indices in range. *)
Definition slice {A} (l : list A) (from to : nat) : list A :=
  take (to - from) (drop from l).

(** ** First copy (asynchronous existence check) *)

Module V1.
Section WithEnv.

Variable env : Env.

Definition createNodeFromSourceFile : SourceFile → ASTNode :=
createNodeFromSourceFile (isNameable env) (isJSDocable env) (path_basename env).

Definition parseTypeScriptFile (filePath : string) : Eff FileResult :=
try_catch
(early ← try_catch
   (host (Access filePath)
      (match access env filePath with
       | None => Normal None
       | Some error => Throw error
       end))
   (λ _, mret (Some (ErrorEnvelope ("File not found: " +:+ filePath))));
 match early with
 | Some result => mret result
 | None =>
     (* Create a project and add the source file *)
     sourceFile ← host (AddSourceFileAtPath filePath)
                       (addSourceFileAtPath env filePath);
     (* Create the root node (the source file itself) *)
     let astRoot := createNodeFromSourceFile sourceFile in
     mret (Success astRoot)
 end)
(λ error,
   mret (ErrorEnvelope ("Failed to parse " +:+ filePath +:+ ": "
                        +:+ error_message error))).

Definition EXCLUDED_DIRS : gset string :=
list_to_set ["node_modules"; ".git"; "dist"; "build"; ".venv"; "venv";
           "coverage"; ".next"; ".cache"; "__pycache__"].

(** [traverse]: [files] is the array of the enclosing function, handed in
and returned.  [listing] is what [readdir(currentPath)] reports. *)
Fixpoint traverse (extensions : list string) (currentPath : string)
(listing : Listing) (files : list string) {struct listing}
: Eff (list string) :=
match listing with
| ReaddirError error => host (Readdir currentPath) (Throw error)
| Entries entries =>
  host (Readdir currentPath) (Normal ());;
  (fix loop (entries : list Dirent) (files : list string)
       : Eff (list string) :=
     match entries with
     | [] => mret files
     | entry :: entries =>
         let fullPath := path_join env currentPath (dirent_name entry) in
         files ←
           match entry with
           | DirentDirectory name contents =>
               (* Skip excluded directories *)
               if bool_decide (name ∈ EXCLUDED_DIRS) then mret files
               else traverse extensions fullPath contents files
           | DirentFile name =>
               if existsb (λ ext, endsWith name ext) extensions
               then mret (files ++ [fullPath])
               else mret files
           | DirentOther _ => mret files
           end;
         loop entries files
     end) entries files
end.

Definition findFilesRecursively (dirPath : string) (extensions : list string)
: Eff (list string) :=
let files := [] in
traverse extensions dirPath (readdir env dirPath) files.

(** [chunk.map(async (file) => { results[file] = await parseTypeScriptFile(file) })]
awaited by [Promise.all]: the tasks of one chunk, taken in the order of
the chunk. *)
Fixpoint process_chunk (chunk : list string)
(results : gmap string Value) : Eff (gmap string Value) :=
match chunk with
| [] => mret results
| file :: chunk =>
  result ← parseTypeScriptFile file;
  process_chunk chunk (assign file (FileValue result) results)
end.

Definition CONCURRENCY_LIMIT : nat := 5.

(** The loop [for (let i = 0; i < files.length; i += CONCURRENCY_LIMIT)];
[fuel] bounds the number of rounds. *)
Fixpoint chunk_loop (fuel : nat) (files : list string) (i : nat)
(results : gmap string Value) : Eff (gmap string Value) :=
match fuel with
| O => mret results
| S fuel =>
  if bool_decide (i < length files)%nat then
    let chunk := slice files i (i + CONCURRENCY_LIMIT) in
    results ← process_chunk chunk results;
    chunk_loop fuel files (i + CONCURRENCY_LIMIT)%nat results
  else mret results
end.

Definition parseDirectory (dirPath : string) (extensions : list string)
: Eff (gmap string Value) :=
let results : gmap string Value := ∅ in
try_catch
(files ← findFilesRecursively dirPath extensions;
 (* Process files in parallel with a concurrency limit *)
 results ← chunk_loop (length files) files 0 results;
 mret results)
(λ error,
   (* Return error with the directory path as the key *)
   mret {[ dirPath :=
             FileValue (ErrorEnvelope
               ("Failed to parse directory " +:+ dirPath +:+ ": "
                +:+ error_message error)) ]}).

End WithEnv.
End V1.

(** ** Second copy (synchronous existence check) *)

Module V2.
Section WithEnv.

Variable env : Env.

(** The normalizer of this copy has the text of the first but for the two
guard names; a call of a missing guard throws, so every function on the
way to such a call is a computation.  [shouldSkipNode] and
[getNodeAttributes] call neither guard and are the shared ones. *)
Definition getNodeName (node : Node) : Eff (option string) :=
nameable ← call_guard (isNameableNode env) node;
if (nameable : bool) then mret (getName node)
else if isIdentifier node then mret (Some (getText node))
else mret None.

Definition getNodeDocComment (node : Node) : Eff (option string) :=
jsDocable ← call_guard (isJSDocableNode env) node;
if (jsDocable : bool) then
  let jsDocs := getJsDocs node in
  if bool_decide (0 < length jsDocs)%nat then
    mret (Some (trim (join newline (omap getDescription jsDocs))))
  else mret None
else mret None.

Definition addNodeSpecificDetails (node : Node) (astNode : ASTNode)
: Eff ASTNode :=
name ← getNodeName node;
let astNode :=
  match name with
  | Some name => if truthy name then set_name name astNode else astNode
  | None => astNode
  end in
docComment ← getNodeDocComment node;
let astNode :=
  match docComment with
  | Some docComment =>
      if truthy docComment then set_docComment docComment astNode else astNode
  | None => astNode
  end in
let attributes := getNodeAttributes node in
if bool_decide (0 < size attributes)%nat
then mret (set_attributes attributes astNode)
else mret astNode.

(** As in the first copy, [astNode] is pushed into its parent here once it
is filled; a throw on the way leaves no tree behind, since every caller
drops the root when it catches. *)
Fixpoint processNode (node : Node) (parentASTNode : ASTNode) : Eff ASTNode :=
if shouldSkipNode node then mret parentASTNode
else
  let nodeKind := getKindName node in
  let astNode :=
    MkASTNode nodeKind None (Some (getStartLineNumber node))
      (Some (getEndLineNumber node)) None None None None in
  astNode ← addNodeSpecificDetails node astNode;
  astNode ←
    (fix processNodeChildren (cs : list Node) (astNode : ASTNode)
         : Eff ASTNode :=
       match cs with
       | [] => mret astNode
       | child :: cs =>
           astNode ← processNode child astNode;
           processNodeChildren cs astNode
       end) (getChildren node) astNode;
  mret (push_child astNode parentASTNode).

(** The [for ... of] loop over a list of nodes, each handed to
[processNode] with the same parent. *)
Fixpoint processAll (nodes : list Node) (astNode : ASTNode) : Eff ASTNode :=
match nodes with
| [] => mret astNode
| node :: nodes =>
    astNode ← processNode node astNode;
    processAll nodes astNode
end.

Definition createNodeFromSourceFile (sourceFile : SourceFile) : Eff ASTNode :=
let fileNode :=
  MkASTNode "SourceFile" (Some (path_basename env (getFilePath sourceFile)))
    (Some 1) (Some (sf_getEndLineNumber sourceFile)) None None (Some []) None in
processAll (getStatements sourceFile) fileNode.

Definition parseTypeScriptFile (filePath : string) : Eff FileResult :=
try_catch
(found ← host (ExistsSync filePath) (Normal (existsSync env filePath));
 if negb found then
   mret (ErrorEnvelope ("File not found: " +:+ filePath))
 else
   (* Create a project and add the source file *)
   sourceFile ← host (AddSourceFileAtPath filePath)
                     (addSourceFileAtPath env filePath);
   (* Create the root node (the source file itself) *)
   astRoot ← createNodeFromSourceFile sourceFile;
   mret (Success astRoot))
(λ error,
   mret (ErrorEnvelope ("Failed to parse " +:+ filePath +:+ ": "
                        +:+ error_message error))).

(** [traverse]: a failing [readdir] is the first statement of the guarded
block, so the handler finds [files] as it was on entry. *)
Fixpoint traverse (extensions : list string) (currentPath : string)
(listing : Listing) (files : list string) {struct listing}
: Eff (list string) :=
try_catch
match listing with
| ReaddirError error => host (Readdir currentPath) (Throw error)
| Entries entries =>
    host (Readdir currentPath) (Normal ());;
    (fix loop (entries : list Dirent) (files : list string)
         : Eff (list string) :=
       match entries with
       | [] => mret files
       | entry :: entries =>
           let entryPath := path_join env currentPath (dirent_name entry) in
           files ←
             match entry with
             | DirentDirectory name contents =>
                 (* Skip common directories that shouldn't be processed *)
                 if bool_decide (name ≠ "node_modules")
                    && bool_decide (name ≠ ".git")
                    && bool_decide (name ≠ "dist")
                    && bool_decide (name ≠ ".venv") then
                   traverse extensions entryPath contents files
                 else mret files
             | DirentFile name =>
                 if bool_decide (path_extname env name ∈ extensions)
                 then mret (files ++ [entryPath])
                 else mret files
             | DirentOther _ => mret files
             end;
           loop entries files
       end) entries files
end
(λ error,
   host (ConsoleError ("Error reading directory " +:+ currentPath +:+ ": "
                       +:+ String_of error)) (Normal ());;
   mret files).

Definition findFilesRecursively (dirPath : string) (extensions : list string)
: Eff (list string) :=
let files := [] in
traverse extensions dirPath (readdir env dirPath) files.

(** [project.addSourceFileAtPath(file)]: the source file joins the
project, unless the project already holds the file of that path. *)
Definition project_add (sourceFile : SourceFile) (project : list SourceFile)
: list SourceFile :=
if bool_decide (getFilePath sourceFile ∈ getFilePath <$> project) then project
else project ++ [sourceFile].

(** The first loop of [parseDirectory]: add all files to the project. *)
Fixpoint add_files (files : list string) (project : list SourceFile)
(results : gmap string Value) : Eff (list SourceFile * gmap string Value) :=
match files with
| [] => mret (project, results)
| file :: files =>
  '(project, results) ←
    try_catch
      (sourceFile ← host (AddSourceFileAtPath file)
                         (addSourceFileAtPath env file);
       mret (project_add sourceFile project, results))
      (λ error,
         mret (project,
               assign file
                 (FileValue (ErrorEnvelope
                    ("Failed to add file to project: " +:+ String_of error)))
                 results));
  add_files files project results
end.

(** The second loop: parse each file of the project. *)
Fixpoint parse_files (sourceFiles : list SourceFile)
(results : gmap string Value) : Eff (gmap string Value) :=
match sourceFiles with
| [] => mret results
| sourceFile :: sourceFiles =>
  let filePath := getFilePath sourceFile in
  results ←
    try_catch
      (astRoot ← createNodeFromSourceFile sourceFile;
       mret (assign filePath (FileValue (Success astRoot)) results))
      (λ error,
         mret (assign filePath
                 (FileValue (ErrorEnvelope
                    ("Failed to parse file: " +:+ String_of error)))
                 results));
  parse_files sourceFiles results
end.

Definition parseDirectory (dirPath : string) (extensions : list string)
: Eff (gmap string Value) :=
try_catch
(invalid ←
   (found ← host (ExistsSync dirPath) (Normal (existsSync env dirPath));
    if negb found then mret true
    else
      stats ← host (StatSync dirPath) (statSync env dirPath);
      mret (negb (stats_isDirectory stats)));
 if (invalid : bool) then
   mret {[ "error" := StringValue ("Directory not found: " +:+ dirPath) ]}
 else
   let results : gmap string Value := ∅ in
   (* Create a project for all files *)
   let project : list SourceFile := [] in
   (* Find all TypeScript files recursively *)
   files ← findFilesRecursively dirPath extensions;
   (* Add all files to the project *)
   '(project, results) ← add_files files project results;
   (* Parse each file *)
   results ← parse_files project results;
   mret results)
(λ error,
   mret {[ "error" :=
             StringValue ("Failed to parse directory: " +:+ String_of error) ]}).

End WithEnv.
End V2.

(** ** The AST as the program builds it: objects and references

    [processNode] pushes the new [astNode] into [parentASTNode.children]
    first and fills the children of [astNode] afterwards; the parent sees them
    because its array holds the object itself.  This section has the objects
    in a store and the arrays holding references, with every step in the
    order of the source; [processNode] above is shown below to compute the
    tree this store holds. *)

Module Store.

(** A reference: the index of an object in the store. *)
Abbreviation Ref := nat.

(** An [ASTNode] object; [children] is an array of references. *)
Record Object := MkObject {
  o_nodeType : string;
  o_name : option string;
  o_startLine : option Z;
  o_endLine : option Z;
  o_text : option string;
  o_docComment : option string;
  o_children : option (list Ref);
  o_attributes : option (gmap string AttrValue);
}.

(** The object with the fields of [astNode] and the given [children]. *)
Definition object_of (astNode : ASTNode) (refs : option (list Ref)) : Object :=
  MkObject (nodeType astNode) (name astNode) (startLine astNode)
    (endLine astNode) (text astNode) (docComment astNode) refs
    (attributes astNode).

(** [parentASTNode.children.push(astNode)], after creating the array when
    the field is missing. *)
Definition push (astNode parentASTNode : Ref) (store : list Object)
    : list Object :=
  alter (λ parent,
           MkObject (o_nodeType parent) (o_name parent) (o_startLine parent)
             (o_endLine parent) (o_text parent) (o_docComment parent)
             (Some (default [] (o_children parent) ++ [astNode]))
             (o_attributes parent))
        parentASTNode store.

Section WithGuards.

Variable isNameable : Node → bool.
Variable isJSDocable : Node → bool.
Variable basename : string → string.

Fixpoint processNode (node : Node) (parentASTNode : Ref)
    (store : list Object) : list Object :=
  (* Skip nodes we don't care about *)
  if shouldSkipNode node then store
  else
    (* the new object; [addNodeSpecificDetails] fills it before any other
       object refers to it *)
    let astNode : Ref := length store in
    let store :=
      store ++ [object_of (addNodeSpecificDetails isNameable isJSDocable node
                             (initial node)) None] in
    (* Add the node to its parent *)
    let store := push astNode parentASTNode store in
    (* Process children for container nodes *)
    (fix processNodeChildren (cs : list Node) (store : list Object)
         : list Object :=
       match cs with
       | [] => store
       | child :: cs => processNodeChildren cs (processNode child astNode store)
       end) (getChildren node) store.

Definition processAll (nodes : list Node) (astNode : Ref)
    (store : list Object) : list Object :=
  foldl (λ store child, processNode child astNode store) store nodes.

(** The store [createNodeFromSourceFile] leaves; [fileNode] is object 0. *)
Definition createNodeFromSourceFile (sourceFile : SourceFile) : list Object :=
  let fileNode :=
    object_of
      (MkASTNode "SourceFile" (Some (basename (getFilePath sourceFile)))
         (Some 1) (Some (sf_getEndLineNumber sourceFile)) None None None None)
      (Some []) in
  processAll (getStatements sourceFile) 0%nat [fileNode].

End WithGuards.

(** [represents store ref tree]: following the references from [ref] in
    [store] reads [tree]; this is what serializing the object yields. *)
Inductive represents (store : list Object) : Ref → ASTNode → Prop :=
| represents_leaf ref tree :
    store !! ref = Some (object_of tree None) →
    children tree = None →
    represents store ref tree
| represents_inner ref tree refs trees :
    store !! ref = Some (object_of tree (Some refs)) →
    children tree = Some trees →
    Forall2 (represents store) refs trees →
    represents store ref tree.

(** Reading the tree at [ref], to a depth of [fuel]. *)
Fixpoint read (fuel : nat) (store : list Object) (ref : Ref) : option ASTNode :=
  match fuel with
  | O => None
  | S fuel =>
      object ← store !! ref;
      trees ← match o_children object with
              | None => Some None
              | Some refs => Some <$> mapM (read fuel store) refs
              end;
      Some (MkASTNode (o_nodeType object) (o_name object) (o_startLine object)
              (o_endLine object) (o_text object) (o_docComment object)
              trees (o_attributes object))
  end.

(** References point forward: to objects allocated later, and allocated. *)
Definition ordered (store : list Object) : Prop :=
  ∀ ref object refs child,
    store !! ref = Some object → o_children object = Some refs →
    child ∈ refs → (ref < child < length store)%nat.

End Store.

(** ** Definitions the properties are stated with *)

(** The attribute vocabulary of §4.1 of the specification, by node kind. *)
Definition vocabulary (kind : string) : list string :=
  if bool_decide (kind = "ClassDeclaration") then ["extends"; "implements"]
  else if bool_decide (kind ∈ ["FunctionDeclaration"; "MethodDeclaration"; "Constructor"])
       then ["parameters"; "returnType"]
  else if bool_decide (kind = "InterfaceDeclaration") then ["extends"]
  else if bool_decide (kind = "VariableDeclaration")
       then ["type"; "hasInitializer"; "initializerValue"]
  else if bool_decide (kind = "PropertyDeclaration")
       then ["type"; "visibility"; "static"; "readonly"]
  else [].

(** A function, method or constructor declaration. *)
Definition is_function_like (node : Node) : Prop :=
  getKind node ∈ [FunctionDeclaration; MethodDeclaration; Constructor].



(** The parser reports the span of every child inside the span of its
    parent, all the way down. *)
Fixpoint spans_nested (node : Node) : bool :=
  forallb (λ child,
             bool_decide (getStartLineNumber node ≤ getStartLineNumber child)
             && bool_decide (getEndLineNumber child ≤ getEndLineNumber node)
             && spans_nested child)
          (getChildren node).

(** The same for a source file: its statements lie between line 1 and the
    last line of the file. *)
Definition file_spans_nested (sourceFile : SourceFile) : bool :=
  forallb (λ statement,
             bool_decide (1 ≤ getStartLineNumber statement)
             && bool_decide (getEndLineNumber statement
                             ≤ sf_getEndLineNumber sourceFile)
             && spans_nested statement)
          (getStatements sourceFile).


(** [subnode d n]: the AST node [d] is [n] or occurs below it. *)
Inductive subnode (d : ASTNode) : ASTNode → Prop :=
| subnode_here : subnode d d
| subnode_below n cs c :
    children n = Some cs → c ∈ cs → subnode d c → subnode d n.

(** [child_of c p]: [c] is an element of the [children] of [p]. *)
Definition child_of (c p : ASTNode) : Prop :=
  ∃ cs, children p = Some cs ∧ c ∈ cs.

(** [below d n]: [d] occurs strictly below [n]. *)
Definition below (d n : ASTNode) : Prop :=
  ∃ c, child_of c n ∧ subnode d c.

(** [descendant d n], on syntax nodes: [d] is [n] or occurs below it. *)
Inductive descendant (d : Node) : Node → Prop :=
| descendant_here : descendant d d
| descendant_below n c :
    c ∈ getChildren n → descendant d c → descendant d n.

(** What [parseTypeScriptFile] of the first copy returns for a path, read
    off the host's answers. *)
Definition file_outcome (env : Env) (filePath : string) : FileResult :=
  match access env filePath with
  | Some _ => ErrorEnvelope ("File not found: " +:+ filePath)
  | None =>
      match addSourceFileAtPath env filePath with
      | Normal sourceFile => Success (V1.createNodeFromSourceFile env sourceFile)
      | Throw error =>
          ErrorEnvelope ("Failed to parse " +:+ filePath +:+ ": "
                         +:+ error_message error)
      end
  end.

(** The result object after the entries of [files] have been written. *)
Definition record_all (env : Env) (files : list string)
    (results : gmap string Value) : gmap string Value :=
  foldl (λ results file, assign file (FileValue (file_outcome env file)) results)
        results files.

(** The single top-level error envelope [{ error: message }]. *)
Definition top_level_envelope (results : gmap string Value) : Prop :=
  ∃ message, results = {[ "error" := StringValue message ]}.

(** Every value of the object is a file result: an AST or [{ error }]. *)
Definition per_file_shaped (results : gmap string Value) : Prop :=
  ∀ key value, results !! key = Some value → ∃ result, value = FileValue result.

(** The path does not name an existing directory. *)
Definition not_a_directory (env : Env) (dirPath : string) : Prop :=
  existsSync env dirPath = false
  ∨ ∃ stats, statSync env dirPath = Normal stats
             ∧ stats_isDirectory stats = false.

(** The path names an existing directory. *)
Definition is_a_directory (env : Env) (dirPath : string) : Prop :=
  existsSync env dirPath = true
  ∧ ∃ stats, statSync env dirPath = Normal stats
             ∧ stats_isDirectory stats = true.

(** The tokens of a syntax node: the nodes at or below it that have no
    children. *)
Fixpoint tokens (node : Node) : list Node :=
  match getChildren node with
  | [] => [node]
  | child :: children => flat_map tokens (child :: children)
  end.

(** The file holds nothing but punctuation and terminator tokens: every
    token of every statement has one of the noise kinds. *)
Definition only_noise_tokens (sourceFile : SourceFile) : bool :=
  forallb shouldSkipNode (flat_map tokens (getStatements sourceFile)).

(** The last clause of the filtering property as the specification words
    it: such a file yields a root with an empty [children] list. *)
Definition noise_only_file_as_specified (isNameable isJSDocable : Node → bool)
    (basename : string → string) (sourceFile : SourceFile) : Prop :=
  only_noise_tokens sourceFile = true →
  children (createNodeFromSourceFile isNameable isJSDocable basename sourceFile)
    = Some [].

(** The files of a directory tree that the first copy is after: those whose
    name ends with one of the extensions, in the directories that can be
    read, outside the excluded ones. *)
Fixpoint matching_files (env : Env) (extensions : list string)
    (currentPath : string) (listing : Listing) : list string :=
  match listing with
  | ReaddirError _ => []
  | Entries entries =>
      flat_map
        (λ entry,
           let fullPath := path_join env currentPath (dirent_name entry) in
           match entry with
           | DirentDirectory name contents =>
               if bool_decide (name ∈ V1.EXCLUDED_DIRS) then []
               else matching_files env extensions fullPath contents
           | DirentFile name =>
               if existsb (λ ext, endsWith name ext) extensions
               then [fullPath] else []
           | DirentOther _ => []
           end)
        entries
  end.

(** Every directory of the tree that the walk of the first copy enters can
    be read. *)
Fixpoint readable (listing : Listing) : bool :=
  match listing with
  | ReaddirError _ => false
  | Entries entries =>
      forallb
        (λ entry,
           match entry with
           | DirentDirectory name contents =>
               bool_decide (name ∈ V1.EXCLUDED_DIRS) || readable contents
           | _ => true
           end)
        entries
  end.

(** What a walk [run] of [listing] comes to: the files of the tree after
    those it was given when the tree can be read, a throw when it cannot. *)
Definition traverse_outcome (env : Env) (extensions : list string)
    (listing : Listing) (run : list string → Eff (list string))
    (currentPath : string) : Prop :=
  ∀ files,
    if readable listing then
      completion (run files)
        = Normal (files ++ matching_files env extensions currentPath listing)
    else ∃ error, completion (run files) = Throw error.

(** The key set of the result as the specification words it: whenever the
    first copy of [parseDirectory] returns, the keys of its result are
    exactly the files of the tree. *)
Definition one_entry_per_file_as_specified (env : Env) (dirPath : string)
    (extensions : list string) : Prop :=
  ∀ results,
    completion (V1.parseDirectory env dirPath extensions) = Normal results →
    ∀ file,
      file ∈ dom results
      ↔ file ∈ matching_files env extensions dirPath (readdir env dirPath).


(** The error of the first guard the second copy's walk would find
    missing: it calls [Node.isNameableNode] first, then
    [Node.isJSDocableNode]. *)
Definition missing_guard (env : Env) : option Thrown :=
  match isNameableNode env, isJSDocableNode env with
  | Missing error, _ => Some error
  | Exported _, Missing error => Some error
  | Exported _, Exported _ => None
  end.

(** What one call of [processNode] or [processNodeChildren] on the store
    does, seen from the reference it is given: the store stays ordered and
    only grows, no other object that existed changes, and the tree at the
    reference becomes the one the tree function returns. *)
Definition simulates (run : nat → list Store.Object → list Store.Object)
    (step : ASTNode → ASTNode) : Prop :=
  ∀ parent store tree,
    Store.ordered store → Store.represents store parent tree →
    Store.ordered (run parent store)
    ∧ (length store ≤ length (run parent store))%nat
    ∧ (∀ l, (l < length store)%nat → l ≠ parent →
            run parent store !! l = store !! l)
    ∧ Store.represents (run parent store) parent (step tree).

(** The host with another parser in place of [project.addSourceFileAtPath]. *)
Definition with_parser (parser : string → Completion SourceFile) (env : Env) : Env :=
  {| access := access env; existsSync := existsSync env;
     statSync := statSync env; readdir := readdir env;
     path_join := path_join env; path_basename := path_basename env;
     path_extname := path_extname env;
     addSourceFileAtPath := parser;
     isNameable := isNameable env; isJSDocable := isJSDocable env;
     isNameableNode := isNameableNode env;
     isJSDocableNode := isJSDocableNode env |}.

(** ** Sample inputs *)

Module Sample.

Definition number : Type_ := {| isVoid := false; type_getText := "number" |}.

(** [function answer() { return 42; }]: no return type annotation; the
  checker infers [number]. *)
Definition inferred_function : Node :=
with_signature [] None number
  (leaf FunctionDeclaration 1 1 "function answer() { return 42; }").

(** [function twice(n: number): number { return 2 * n; }] *)
Definition annotated_function : Node :=
with_signature
  [ {| param_getName := "n"; param_getTypeNode := Some "number";
       param_getInitializer := None |} ]
  (Some "number") number
  (leaf FunctionDeclaration 2 2
     "function twice(n: number): number { return 2 * n; }").


(** A class spanning lines 4 to 6 with one property and a stray token. *)
Definition property : Node := leaf PropertyDeclaration 5 5 "x: number;".

Definition class : Node :=
with_children [property; leaf SemicolonToken 5 5 ";"]
  (leaf ClassDeclaration 4 6 "class Foo { x: number; }").

Definition sourceFile : SourceFile :=
{| getFilePath := "/repo/src/sample.ts"; sf_getEndLineNumber := 7;
   getStatements := [inferred_function; annotated_function; class;
                     leaf EndOfFileToken 7 7 ""] |}.

(** The file [;] as the parser reports it: one [EmptyStatement], whose only
  child is the token. *)
Definition empty_statement : Node :=
with_children [leaf SemicolonToken 1 1 ";"]
  (leaf (OtherKind "EmptyStatement") 1 1 ";").

Definition semicolon_file : SourceFile :=
{| getFilePath := "/repo/src/b.tsx"; sf_getEndLineNumber := 1;
   getStatements := [empty_statement] |}.

(** A file without any statement. *)
Definition empty_file : SourceFile :=
{| getFilePath := "/repo/empty.ts"; sf_getEndLineNumber := 1;
   getStatements := [] |}.

Definition never (_ : Node) : bool := false.

(** The part of a path after its last [/]. *)
Fixpoint basename_go (s acc : string) : string :=
match s with
| EmptyString => String.rev acc
| String a s' =>
    if Ascii.eqb a "/" then basename_go s' "" else basename_go s' (String a acc)
end.
Definition basename (s : string) : string := basename_go s "".

(** [path.extname] of a file name: the part from its last [.] on, where a
  [.] that begins the name starts no extension and [..] has none. *)
Fixpoint extname_go (s : string) (acc : option string) : string :=
match s with
| EmptyString => default "" (String.rev <$> acc)
| String a s' =>
    if Ascii.eqb a "." then extname_go s' (Some (String a ""))
    else extname_go s' ((λ acc, String a acc) <$> acc)
end.
Definition extname (name : string) : string :=
match name with
| EmptyString => ""
| String _ rest => if bool_decide (name = "..") then "" else extname_go rest None
end.

Definition join (a b : string) : string := a +:+ "/" +:+ b.

(** Mixin guards for the sample host: the kinds with the [NameableNode]
  mixin, and some of the kinds with the [JSDocableNode] mixin. *)
Definition nameable (node : Node) : bool :=
bool_decide (getKind node ∈
               [ClassDeclaration; FunctionDeclaration;
                OtherKind "ClassExpression"; OtherKind "FunctionExpression"]).
Definition jsDocable (node : Node) : bool :=
bool_decide (getKind node ∈
               [ClassDeclaration; FunctionDeclaration; MethodDeclaration;
                Constructor; InterfaceDeclaration; PropertyDeclaration;
                OtherKind "VariableStatement"; OtherKind "EnumDeclaration";
                OtherKind "TypeAliasDeclaration"]).

Definition enoent (syscall path : string) : Thrown :=
ErrorObject "Error"
  ("ENOENT: no such file or directory, " +:+ syscall +:+ " '" +:+ path +:+ "'").

(** The [TypeError] a call of [ts_morph.Node.<name>] throws when the release
  has no such function. *)
Definition not_a_function (name : string) : Thrown :=
ErrorObject "TypeError" ("ts_morph.Node." +:+ name +:+ " is not a function").

Definition directories : list string := ["repo"; "repo/src"; "repo/node_modules"].
Definition files : list string :=
["repo/a.ts"; "repo/broken.ts"; "repo/notes.md"; "repo/src/b.tsx";
 "repo/node_modules/index.ts"].

Definition repo : Listing :=
Entries [ DirentFile "a.ts"; DirentFile "broken.ts"; DirentFile "notes.md";
          DirentDirectory "node_modules" (Entries [DirentFile "index.ts"]);
          DirentDirectory "src" (Entries [DirentFile "b.tsx"]) ].

(** A host: the directory [repo] above, [repo/broken.ts] a file the parser
  rejects, and no path [missing]; its ts-morph has [Node.isNameable] and
  [Node.isJSDocable], and neither of the names the second copy calls. *)
Definition host : Env :=
{| access path :=
     if bool_decide (path ∈ directories ++ files) then None
     else Some (enoent "access" path);
   existsSync path := bool_decide (path ∈ directories ++ files);
   statSync path :=
     if bool_decide (path ∈ directories)
     then Normal {| stats_isFile := false; stats_isDirectory := true |}
     else if bool_decide (path ∈ files)
     then Normal {| stats_isFile := true; stats_isDirectory := false |}
     else Throw (enoent "stat" path);
   readdir path :=
     if bool_decide (path = "repo") then repo
     else ReaddirError (enoent "scandir" path);
   path_join := join; path_basename := basename; path_extname := extname;
   addSourceFileAtPath path :=
     if bool_decide (path = "repo/a.ts") then Normal sourceFile
     else if bool_decide (path = "repo/src/b.tsx") then Normal semicolon_file
     else Throw (ErrorObject "Error" ("Cannot read " +:+ path));
   isNameable := nameable; isJSDocable := jsDocable;
   isNameableNode := Missing (not_a_function "isNameableNode");
   isJSDocableNode := Missing (not_a_function "isJSDocableNode") |}.


(** The output for [sourceFile] and for two of its nodes, with guards that
  hold of no node. *)
Definition root_ast : ASTNode :=
createNodeFromSourceFile never never basename sourceFile.
Definition class_ast : ASTNode := normalize never never class.
Definition property_ast : ASTNode := normalize never never property.
Definition function_ast : ASTNode := normalize never never annotated_function.

End Sample.

(** ** Further definitions for properties of the rest of the program *)

(** [visible d node]: the syntax node [d] is [node], or is reached from it
    through children none of which [shouldSkipNode] rejects. *)
Inductive visible (d : Node) : Node → Prop :=
| visible_here : visible d d
| visible_below node child :
    child ∈ getChildren node → shouldSkipNode child = false →
    visible d child → visible d node.

(** [made_of ws s]: the string is a sequence of members of [ws]. *)
Inductive made_of (ws : list string) : string → Prop :=
| made_of_empty : made_of ws ""
| made_of_cons w s : w ∈ ws → made_of ws s → made_of ws (w +:+ s).

(** The string holds white space only. *)
Definition blank (s : string) : Prop := made_of white_space s.

(** The string begins with a white space character. *)
Definition starts_with_space (s : string) : bool :=
  existsb (λ space, String.prefix space s) white_space.

(** The string ends with a white space character. *)
Definition ends_with_space (s : string) : bool :=
  existsb (λ space, endsWith s space) white_space.

(** The visibility a property declaration is reported with: the first of
    [private], [protected], [public] among its modifiers. *)
Definition visibility_of (node : Node) : option string :=
  if hasModifier node "private" then Some "private"
  else if hasModifier node "protected" then Some "protected"
  else if hasModifier node "public" then Some "public"
  else None.

(** The loop over the entries of one directory in [traverse] of the first
    copy, by name. *)
Fixpoint traverse_entries (env : Env) (extensions : list string)
    (currentPath : string) (entries : list Dirent) (files : list string)
    : Eff (list string) :=
  match entries with
  | [] => mret files
  | entry :: entries =>
      let fullPath := path_join env currentPath (dirent_name entry) in
      files ←
        match entry with
        | DirentDirectory name contents =>
            if bool_decide (name ∈ V1.EXCLUDED_DIRS) then mret files
            else V1.traverse env extensions fullPath contents files
        | DirentFile name =>
            if existsb (λ ext, endsWith name ext) extensions
            then mret (files ++ [fullPath])
            else mret files
        | DirentOther _ => mret files
        end;
      traverse_entries env extensions currentPath entries files
  end.

(** The same loop in [traverse] of the second copy. *)
Fixpoint traverse_entries_v2 (env : Env) (extensions : list string)
    (currentPath : string) (entries : list Dirent) (files : list string)
    : Eff (list string) :=
  match entries with
  | [] => mret files
  | entry :: entries =>
      let entryPath := path_join env currentPath (dirent_name entry) in
      files ←
        match entry with
        | DirentDirectory name contents =>
            if bool_decide (name ≠ "node_modules")
               && bool_decide (name ≠ ".git")
               && bool_decide (name ≠ "dist")
               && bool_decide (name ≠ ".venv") then
              V2.traverse env extensions entryPath contents files
            else mret files
        | DirentFile name =>
            if bool_decide (path_extname env name ∈ extensions)
            then mret (files ++ [entryPath])
            else mret files
        | DirentOther _ => mret files
        end;
      traverse_entries_v2 env extensions currentPath entries files
  end.



(** The host calls [parseTypeScriptFile] of the first copy makes for a
    file. *)
Definition file_trace (env : Env) (file : string) : list Event :=
  match access env file with
  | None => [Access file; AddSourceFileAtPath file]
  | Some _ => [Access file]
  end.

(** ** The command line *)

(** What [main] prints with [console.log], before it is serialized. *)
Inductive Document :=
| DirectoryDocument (results : gmap string Value)
| FileDocument (result : FileResult).

(** How [main] ends: it has printed a document and returns, or it has called
    [process.exit]. *)
Inductive Outcome :=
| Logged (document : Document)
| ProcessExit (code : nat).

(** [console.error(message)] *)
Definition console_error (message : string) : Eff () :=
  host (ConsoleError message) (Normal ()).

(** [main] of the first copy; [argv] is [process.argv]. *)
Module CLI1.

Definition main (env : Env) (argv : list string) : Eff Outcome :=
  try_catch
    (let args := drop 2 argv in
     if bool_decide (length args = 0%nat) then
       console_error "Please provide a directory path";;
       mret (ProcessExit 1)
     else
       let dirPath := default "" (args !! 0%nat) in
       results ← V1.parseDirectory env dirPath [".ts"; ".tsx"];
       mret (Logged (DirectoryDocument results)))
    (λ error,
       console_error ("Error: " +:+ error_message error);;
       mret (ProcessExit 1)).

End CLI1.

(** [main] of the second copy. *)
Module CLI2.

Definition main (env : Env) (argv : list string) : Eff Outcome :=
  (* Check for command-line arguments *)
  let args := drop 2 argv in
  if bool_decide (length args = 0%nat) then
    console_error "Usage: node ast_ts.js <file_or_directory_path>";;
    mret (ProcessExit 1)
  else
    let targetPath := default "" (args !! 0%nat) in
    try_catch
      (stats ← host (StatSync targetPath) (statSync env targetPath);
       if stats_isFile stats then
         result ← V2.parseTypeScriptFile env targetPath;
         mret (Logged (FileDocument result))
       else if stats_isDirectory stats then
         result ← V2.parseDirectory env targetPath [".ts"; ".tsx"];
         mret (Logged (DirectoryDocument result))
       else
         console_error ("Error: " +:+ targetPath
                        +:+ " is not a file or directory");;
         mret (ProcessExit 1))
      (λ error,
         console_error ("Error: " +:+ String_of error);;
         mret (ProcessExit 1)).

End CLI2.

(** More sample inputs. *)
Module Sample2.

(** [private static readonly count: number;] with [public] added. *)
Definition modifiers (modifier : string) : bool :=
  bool_decide (modifier ∈ ["private"; "public"; "static"; "readonly"]).

Definition count_property : Node :=
  {| getKind := PropertyDeclaration; getStartLineNumber := 2;
     getEndLineNumber := 2; getText := "private static readonly count: number;";
     getChildren := []; getName := None; getJsDocs := [];
     class_getExtends := None; getImplements := []; getParameters := [];
     getReturnTypeNode := None;
     getReturnType := {| isVoid := true; type_getText := "void" |};
     interface_getExtends := []; getTypeNode := Some "number";
     getInitializer := None; hasModifier := modifiers; isStatic := true;
     isReadonly := true |}.

(** A class documented by blocks that hold white space only: two spaces,
    no description, an ideographic space (U+3000). *)
Definition blank_docs : list JSDoc :=
  [ {| getDescription := Some "  " |}; {| getDescription := None |};
    {| getDescription := Some (bytes [227; 128; 128]%nat) |} ].

Definition blank_documented_class : Node :=
  {| getKind := ClassDeclaration; getStartLineNumber := 4;
     getEndLineNumber := 4; getText := "class Foo {}";
     getChildren := []; getName := Some "Foo"; getJsDocs := blank_docs;
     class_getExtends := Some "Base"; getImplements := ["Named"; "Sized"];
     getParameters := []; getReturnTypeNode := None;
     getReturnType := {| isVoid := true; type_getText := "void" |};
     interface_getExtends := []; getTypeNode := None;
     getInitializer := None; hasModifier := λ _, false; isStatic := false;
     isReadonly := false |}.

(** The same class documented by [Foo entity]. *)
Definition documented_class : Node :=
  {| getKind := ClassDeclaration; getStartLineNumber := 4;
     getEndLineNumber := 4; getText := "class Foo {}";
     getChildren := []; getName := Some "Foo";
     getJsDocs := [ {| getDescription := Some " Foo entity " |} ];
     class_getExtends := Some "Base"; getImplements := ["Named"; "Sized"];
     getParameters := []; getReturnTypeNode := None;
     getReturnType := {| isVoid := true; type_getText := "void" |};
     interface_getExtends := []; getTypeNode := None;
     getInitializer := None; hasModifier := λ _, false; isStatic := false;
     isReadonly := false |}.

(** The file [f(x, y);] as the parser reports it. *)
Definition arguments : Node :=
  with_children [leaf Identifier 1 1 "x"; leaf CommaToken 1 1 ",";
                 leaf Identifier 1 1 "y"]
    (leaf (OtherKind "SyntaxList") 1 1 "x, y").

Definition call : Node :=
  with_children [leaf Identifier 1 1 "f"; leaf (OtherKind "OpenParenToken") 1 1 "(";
                 arguments; leaf (OtherKind "CloseParenToken") 1 1 ")"]
    (leaf (OtherKind "CallExpression") 1 1 "f(x, y)").

Definition call_statement : Node :=
  with_children [call; leaf SemicolonToken 1 1 ";"]
    (leaf (OtherKind "ExpressionStatement") 1 1 "f(x, y);").

Definition call_file : SourceFile :=
  {| getFilePath := "/repo/src/call.ts"; sf_getEndLineNumber := 1;
     getStatements := [call_statement] |}.



(** A directory with a subdirectory that cannot be read. *)
Definition eacces : Thrown :=
  ErrorObject "Error" "EACCES: permission denied, scandir 'locked/private'".

Definition locked : Listing :=
  Entries [ DirentFile "a.ts";
            DirentDirectory "private" (ReaddirError eacces);
            DirentFile "z.ts" ].

Definition locked_directories : list string := ["locked"; "locked/private"].
Definition locked_files : list string := ["locked/a.ts"; "locked/z.ts"].

(** The sample host with the directory [locked] beside [repo]. *)
Definition locked_host : Env :=
  {| access path :=
       if bool_decide (path ∈ locked_directories ++ locked_files) then None
       else access Sample.host path;
     existsSync path :=
       bool_decide (path ∈ locked_directories ++ locked_files)
       || existsSync Sample.host path;
     statSync path :=
       if bool_decide (path ∈ locked_directories)
       then Normal {| stats_isFile := false; stats_isDirectory := true |}
       else if bool_decide (path ∈ locked_files)
       then Normal {| stats_isFile := true; stats_isDirectory := false |}
       else statSync Sample.host path;
     readdir path :=
       if bool_decide (path = "locked") then locked
       else if bool_decide (path = "locked/private") then ReaddirError eacces
       else readdir Sample.host path;
     path_join := Sample.join; path_basename := Sample.basename;
     path_extname := Sample.extname;
     addSourceFileAtPath path :=
       if bool_decide (path ∈ locked_files) then Normal Sample.empty_file
       else addSourceFileAtPath Sample.host path;
     isNameable := Sample.nameable; isJSDocable := Sample.jsDocable;
     isNameableNode := isNameableNode Sample.host;
     isJSDocableNode := isJSDocableNode Sample.host |}.

End Sample2.

(** * Properties *)

(** ** Induction on syntax nodes and on AST nodes *)

Lemma Node_ind (P : Node → Prop) :
  (∀ node, Forall P (getChildren node) → P node) → ∀ node, P node.
Proof.
  intros step. fix IH 1. intros node. apply step.
  destruct node as [? ? ? ? cs ? ? ? ? ? ? ? ? ? ? ? ? ?]; simpl.
  induction cs as [|c cs IHcs]; constructor; [apply IH | exact IHcs].
Qed.

Section NormalizerFacts.

Variable isNameable : Node → bool.
Variable isJSDocable : Node → bool.
Variable basename : string → string.

Abbreviation process_node := (processNode isNameable isJSDocable).
Abbreviation process_all := (processAll isNameable isJSDocable).
Abbreviation details := (addNodeSpecificDetails isNameable isJSDocable).
Abbreviation root := (createNodeFromSourceFile isNameable isJSDocable basename).
Abbreviation norm := (normalize isNameable isJSDocable).

Lemma processNode_unfold node parentASTNode :
  process_node node parentASTNode =
    if shouldSkipNode node then parentASTNode
    else push_child (norm node) parentASTNode.
Proof.
  destruct node as [? ? ? ? cs ? ? ? ? ? ? ? ? ? ? ? ? ?]; simpl.
  destruct (shouldSkipNode _); [done|]. f_equal.
  unfold normalize, processNodeChildren, processAll, initial, getKindName; simpl.
  match goal with |- _ ?a = foldl _ ?b _ => change b with a; generalize a end.
  induction cs as [|c cs IH]; intros a; simpl; [done|]. apply IH.
Qed.

Lemma set_children_set_children l l' a :
  set_children l (set_children l' a) = set_children l a.
Proof. done. Qed.

Lemma processAll_spec nodes a :
  process_all nodes a =
    match norm <$> kept nodes with
    | [] => a
    | l => set_children (default [] (children a) ++ l) a
    end.
Proof.
  unfold processAll. revert a.
  induction nodes as [|node nodes IH]; intros a; simpl; [done|].
  rewrite IH, processNode_unfold. unfold kept. rewrite filter_cons.
  destruct (shouldSkipNode node) eqn:Hskip.
  - rewrite decide_False by done. done.
  - rewrite decide_True by done. rewrite fmap_cons. fold (kept nodes).
    unfold push_child at 2. simpl.
    destruct (norm <$> kept nodes) as [|b l].
    + done.
    + unfold push_child. rewrite set_children_set_children.
      by rewrite <-app_assoc.
Qed.

(** [addNodeSpecificDetails] touches [name], [docComment] and [attributes]
    only. *)
Lemma addNodeSpecificDetails_nodeType node a :
  nodeType (details node a) = nodeType a.
Proof.
  unfold addNodeSpecificDetails.
  repeat (case_match; simpl); done.
Qed.

Lemma addNodeSpecificDetails_startLine node a :
  startLine (details node a) = startLine a.
Proof.
  unfold addNodeSpecificDetails.
  repeat (case_match; simpl); done.
Qed.

Lemma addNodeSpecificDetails_endLine node a :
  endLine (details node a) = endLine a.
Proof.
  unfold addNodeSpecificDetails.
  repeat (case_match; simpl); done.
Qed.

Lemma addNodeSpecificDetails_children node a :
  children (details node a) = children a.
Proof.
  unfold addNodeSpecificDetails.
  repeat (case_match; simpl); done.
Qed.

Lemma addNodeSpecificDetails_attributes node a :
  attributes (details node a) =
    if bool_decide (0 < size (getNodeAttributes node))%nat
    then Some (getNodeAttributes node) else attributes a.
Proof.
  unfold addNodeSpecificDetails.
  repeat (case_match; simpl); done.
Qed.

Lemma normalize_spec node :
  norm node =
    match norm <$> kept (getChildren node) with
    | [] => details node (initial node)
    | l => set_children l (details node (initial node))
    end.
Proof.
  unfold normalize at 1, processNodeChildren. rewrite processAll_spec.
  by rewrite addNodeSpecificDetails_children.
Qed.

Lemma normalize_nodeType node : nodeType (norm node) = getKindName node.
Proof.
  rewrite normalize_spec.
  case_match; simpl; by rewrite addNodeSpecificDetails_nodeType.
Qed.

Lemma normalize_startLine node :
  startLine (norm node) = Some (getStartLineNumber node).
Proof.
  rewrite normalize_spec.
  case_match; simpl; by rewrite addNodeSpecificDetails_startLine.
Qed.

Lemma normalize_endLine node :
  endLine (norm node) = Some (getEndLineNumber node).
Proof.
  rewrite normalize_spec.
  case_match; simpl; by rewrite addNodeSpecificDetails_endLine.
Qed.

Lemma normalize_attributes node :
  attributes (norm node) =
    if bool_decide (0 < size (getNodeAttributes node))%nat
    then Some (getNodeAttributes node) else None.
Proof.
  rewrite normalize_spec.
  case_match; simpl; by rewrite addNodeSpecificDetails_attributes.
Qed.

Lemma normalize_children node :
  children (norm node) =
    match norm <$> kept (getChildren node) with
    | [] => None
    | l => Some l
    end.
Proof.
  rewrite normalize_spec.
  case_match; simpl; [by rewrite addNodeSpecificDetails_children | done].
Qed.

(** The root: the file node, its children the normalized kept statements. *)
Lemma createNodeFromSourceFile_spec sourceFile :
  root sourceFile =
    MkASTNode "SourceFile" (Some (basename (getFilePath sourceFile)))
      (Some 1) (Some (sf_getEndLineNumber sourceFile)) None None
      (Some (norm <$> kept (getStatements sourceFile))) None.
Proof.
  unfold createNodeFromSourceFile. rewrite processAll_spec.
  by case_match.
Qed.

Lemma elem_of_kept node nodes :
  node ∈ kept nodes ↔ node ∈ nodes ∧ shouldSkipNode node = false.
Proof. unfold kept. by rewrite list_elem_of_filter, (comm and). Qed.

(** Every AST node of a normalized tree is the normalization of a kept
    syntax node below the one the tree was made from. *)
Lemma subnode_normalize node d :
  subnode d (norm node) →
  ∃ node', descendant node' node ∧ d = norm node'.
Proof.
  revert d. induction node as [node IH] using Node_ind. intros d Hd.
  inversion Hd as [|n cs c Hcs Hc Hsub]; subst.
  { exists node. split; [constructor | done]. }
  rewrite normalize_children in Hcs.
  destruct (norm <$> kept (getChildren node)) as [|b l] eqn:Hl; [done|].
  injection Hcs as <-. rewrite <-Hl in Hc.
  apply list_elem_of_fmap in Hc as (child & -> & Hchild).
  apply elem_of_kept in Hchild as [Hchild _].
  rewrite Forall_forall in IH.
  destruct (IH child Hchild d Hsub) as (node' & Hdesc & ->).
  exists node'. split; [|done]. by eapply descendant_below.
Qed.

Lemma child_of_normalize node c :
  child_of c (norm node) →
  ∃ child, child ∈ getChildren node ∧ shouldSkipNode child = false
           ∧ c = norm child.
Proof.
  intros (cs & Hcs & Hc). rewrite normalize_children in Hcs.
  destruct (norm <$> kept (getChildren node)) as [|b l] eqn:Hl; [done|].
  injection Hcs as <-. rewrite <-Hl in Hc.
  apply list_elem_of_fmap in Hc as (child & -> & Hchild).
  apply elem_of_kept in Hchild as [? ?]. eauto.
Qed.

Lemma child_of_root sourceFile c :
  child_of c (root sourceFile) →
  ∃ statement, statement ∈ getStatements sourceFile
               ∧ shouldSkipNode statement = false ∧ c = norm statement.
Proof.
  intros (cs & Hcs & Hc). rewrite createNodeFromSourceFile_spec in Hcs.
  simpl in Hcs. injection Hcs as <-.
  apply list_elem_of_fmap in Hc as (child & -> & Hchild).
  apply elem_of_kept in Hchild as [? ?]. eauto.
Qed.

(** A node of the output tree is the root, or the normalization of a syntax
    node at or below a statement of the file. *)
Lemma subnode_root sourceFile d :
  subnode d (root sourceFile) →
  d = root sourceFile ∨
  ∃ statement node, statement ∈ getStatements sourceFile
                    ∧ descendant node statement ∧ d = norm node.
Proof.
  intros Hd. inversion Hd as [|n cs c Hcs Hc Hsub]; subst; [by left|right].
  destruct (child_of_root sourceFile c) as (statement & Hin & _ & ->).
  { by exists cs. }
  apply subnode_normalize in Hsub as (node & Hdesc & ->). eauto.
Qed.

Lemma below_root sourceFile d :
  below d (root sourceFile) →
  ∃ statement node, statement ∈ getStatements sourceFile
                    ∧ descendant node statement ∧ d = norm node.
Proof.
  intros (c & Hc & Hsub).
  apply child_of_root in Hc as (statement & Hin & _ & ->).
  apply subnode_normalize in Hsub as (node & Hdesc & ->). eauto.
Qed.

End NormalizerFacts.

(** ** The store and the tree it holds *)

Lemma ASTNode_ind (P : ASTNode → Prop) :
  (∀ tree, Forall P (default [] (children tree)) → P tree) → ∀ tree, P tree.
Proof.
  intros step. fix IH 1. intros tree. apply step.
  destruct tree as [? ? ? ? ? ? [trees|] ?]; simpl; [|constructor].
  induction trees as [|t trees IHtrees]; constructor; [apply IH | exact IHtrees].
Qed.

Lemma represents_lookup store ref tree :
  Store.represents store ref tree → (ref < length store)%nat.
Proof. intros [? ? Hlookup _|? ? ? ? Hlookup _ _]; by eapply lookup_lt_Some. Qed.

Lemma object_of_refs tree1 refs1 tree2 refs2 :
  Store.object_of tree1 refs1 = Store.object_of tree2 refs2 → refs1 = refs2.
Proof. unfold Store.object_of. by intros [= _ _ _ _ _ _ ? _]. Qed.

Lemma object_of_inj tree1 refs1 tree2 refs2 :
  Store.object_of tree1 refs1 = Store.object_of tree2 refs2 →
  children tree1 = children tree2 → refs1 = refs2 ∧ tree1 = tree2.
Proof.
  destruct tree1, tree2; simpl. intros [= -> -> -> -> -> -> -> ->] ->. done.
Qed.

(** The tree read from a reference depends only on the objects from that
    reference on, as references point forward. *)
Lemma represents_frame store store' tree :
  Store.ordered store →
  ∀ ref,
    (∀ l, (ref ≤ l)%nat → (l < length store)%nat → store' !! l = store !! l) →
    Store.represents store ref tree → Store.represents store' ref tree.
Proof.
  intros Hordered. induction tree as [tree IH] using ASTNode_ind.
  intros ref Hframe Htree.
  pose proof (represents_lookup _ _ _ Htree) as Hlt.
  destruct Htree as [ref tree Hlookup Hchildren
                    |ref tree refs trees Hlookup Hchildren Hall].
  { apply Store.represents_leaf; [|done]. by rewrite Hframe. }
  eapply Store.represents_inner; [by rewrite Hframe | done |].
  rewrite Hchildren in IH; simpl in IH.
  assert (∀ child, child ∈ refs → (ref < child)%nat) as Hforward.
  { intros child Hchild. by eapply (Hordered ref _ refs child). }
  clear Hlookup Hchildren.
  induction Hall as [|child t refs trees Hchild Hall IHall]; constructor.
  - apply Forall_cons in IH as [IHt _]. apply IHt; [|done].
    intros l Hl ?. apply Hframe; [|done].
    assert (ref < child)%nat by (apply Hforward; set_solver). lia.
  - apply Forall_cons in IH as [_ IH]. apply IHall; [done|].
    intros c Hc. apply Hforward. set_solver.
Qed.

Lemma Forall2_functional {A B} (R : A → B → Prop) l k1 k2 :
  Forall (λ y1, ∀ x y2, R x y1 → R x y2 → y1 = y2) k1 →
  Forall2 R l k1 → Forall2 R l k2 → k1 = k2.
Proof.
  intros Hfun Hall1. revert k2 Hfun.
  induction Hall1 as [|x y1 l k1 Hxy _ IH]; intros k2 Hfun Hall2;
    inversion Hall2 as [|? y2 ? k2' Hxy2 Hall2']; subst; [done|].
  apply Forall_cons in Hfun as [Hy Hfun].
  f_equal; [by eapply Hy | by apply IH].
Qed.

(** A reference holds at most one tree. *)
Lemma represents_functional store tree1 :
  ∀ ref tree2,
    Store.represents store ref tree1 → Store.represents store ref tree2 →
    tree1 = tree2.
Proof.
  induction tree1 as [tree1 IH] using ASTNode_ind. intros ref tree2 H1 H2.
  destruct H1 as [ref tree1 Hlookup1 Hchildren1
                 |ref tree1 refs1 trees1 Hlookup1 Hchildren1 Hall1];
    inversion H2 as [? ? Hlookup2 Hchildren2
                    |? ? refs2 trees2 Hlookup2 Hchildren2 Hall2]; subst;
    rewrite Hlookup1 in Hlookup2; apply (inj Some) in Hlookup2.
  - apply object_of_inj in Hlookup2 as [_ ?]; [done | congruence].
  - by apply object_of_refs in Hlookup2.
  - by apply object_of_refs in Hlookup2.
  - assert (refs1 = refs2) as <-.
    { apply object_of_refs in Hlookup2. congruence. }
    assert (trees1 = trees2) as <-.
    { rewrite Hchildren1 in IH; simpl in IH.
      by eapply Forall2_functional. }
    apply object_of_inj in Hlookup2 as [_ ?]; [done | congruence].
Qed.

Section StoreSimulation.

Variable isNameable : Node → bool.
Variable isJSDocable : Node → bool.
Variable basename : string → string.

Abbreviation store_processNode := (Store.processNode isNameable isJSDocable).
Abbreviation store_processAll := (Store.processAll isNameable isJSDocable).
Abbreviation tree_processNode := (processNode isNameable isJSDocable).
Abbreviation tree_processAll := (processAll isNameable isJSDocable).
Abbreviation details := (addNodeSpecificDetails isNameable isJSDocable).

Lemma store_processNode_unfold node parent store :
  store_processNode node parent store =
    if shouldSkipNode node then store
    else
      store_processAll (getChildren node) (length store)
        (Store.push (length store) parent
           (store ++ [Store.object_of (details node (initial node)) None])).
Proof.
  destruct node as [? ? ? ? cs ? ? ? ? ? ? ? ? ? ? ? ? ?]; simpl.
  destruct (shouldSkipNode _); [done|].
  unfold Store.processAll, initial, getKindName; simpl.
  match goal with |- _ ?s = foldl _ ?s' _ => change s' with s; generalize s end.
  generalize (length store).
  induction cs as [|c cs IH]; intros n s; simpl; [done|]. apply IH.
Qed.

Lemma processAll_simulates nodes :
  Forall (λ node, simulates (store_processNode node) (tree_processNode node))
         nodes →
  simulates (store_processAll nodes) (tree_processAll nodes).
Proof.
  induction 1 as [|node nodes Hnode _ IH]; intros parent store tree Hordered Htree.
  { simpl. by split_and!. }
  change (store_processAll (node :: nodes) parent store)
    with (store_processAll nodes parent (store_processNode node parent store)).
  change (tree_processAll (node :: nodes) tree)
    with (tree_processAll nodes (tree_processNode node tree)).
  destruct (Hnode parent store tree Hordered Htree)
    as (Hordered1 & Hlength1 & Hframe1 & Htree1).
  destruct (IH parent _ _ Hordered1 Htree1)
    as (Hordered2 & Hlength2 & Hframe2 & Htree2).
  split_and!; [done | lia | | done].
  intros l Hl Hne. rewrite Hframe2 by (done || lia). by apply Hframe1.
Qed.

Lemma push_lookup_ne astNode parent store l :
  l ≠ parent → Store.push astNode parent store !! l = store !! l.
Proof. intros Hne. unfold Store.push. by rewrite list_lookup_alter_ne. Qed.

Lemma push_lookup_eq astNode parent store tree refs :
  store !! parent = Some (Store.object_of tree refs) →
  Store.push astNode parent store !! parent
    = Some (Store.object_of tree (Some (default [] refs ++ [astNode]))).
Proof.
  intros Hparent. unfold Store.push.
  by rewrite list_lookup_alter_eq, Hparent.
Qed.

Lemma length_push astNode parent store :
  length (Store.push astNode parent store) = length store.
Proof. apply length_alter. Qed.

(** Allocating a leaf object and pushing it into a parent keeps the store
    ordered. *)
Lemma ordered_push store parent tree object :
  Store.ordered store → Store.represents store parent tree →
  Store.o_children object = None →
  Store.ordered (Store.push (length store) parent (store ++ [object])).
Proof.
  intros Hordered Htree Hleaf ref o refs child Hlookup Hrefs Hchild.
  rewrite length_push, length_app; simpl.
  pose proof (represents_lookup _ _ _ Htree) as Hparent.
  destruct (decide (ref = parent)) as [->|Hne].
  - assert (∃ old, store !! parent = Some (Store.object_of tree old))
      as [old Hold].
    { destruct Htree as [? ? Hold _|? ? old ? Hold _ _]; eauto. }
    rewrite (push_lookup_eq _ _ _ tree old) in Hlookup
      by (by rewrite lookup_app_l by done).
    injection Hlookup as <-. simpl in Hrefs. injection Hrefs as <-.
    apply elem_of_app in Hchild as [Hchild| ->%list_elem_of_singleton]; [|lia].
    destruct old as [old|]; [|by apply elem_of_nil in Hchild].
    pose proof (Hordered parent _ old child Hold eq_refl Hchild). lia.
  - rewrite push_lookup_ne in Hlookup by done.
    apply lookup_app_Some in Hlookup as [Hlookup|[_ Hlookup]].
    + pose proof (Hordered ref o refs child Hlookup Hrefs Hchild). lia.
    + apply list_lookup_singleton_Some in Hlookup as [_ <-]. congruence.
Qed.

Lemma processNode_simulates node :
  simulates (store_processNode node) (tree_processNode node).
Proof.
  induction node as [node IH] using Node_ind.
  intros parent store tree Hordered Htree.
  rewrite store_processNode_unfold, processNode_unfold.
  destruct (shouldSkipNode node); [by split_and!|].
  pose proof (represents_lookup _ _ _ Htree) as Hparent.
  set (object := Store.object_of (details node (initial node)) None).
  set (store2 := Store.push (length store) parent (store ++ [object])).
  assert (Store.ordered store2) as Hordered2 by by eapply ordered_push.
  assert (length store2 = S (length store)) as Hlength2.
  { unfold store2. rewrite length_push, length_app. simpl. lia. }
  assert (∀ l, (l < length store)%nat → l ≠ parent → store2 !! l = store !! l)
    as Hframe2.
  { intros l Hl Hne. unfold store2.
    by rewrite push_lookup_ne, lookup_app_l by done. }
  assert (Store.represents store2 (length store) (details node (initial node)))
    as Hleaf.
  { apply Store.represents_leaf.
    - unfold store2. rewrite push_lookup_ne by lia.
      by rewrite list_lookup_middle.
    - by rewrite addNodeSpecificDetails_children. }
  destruct (processAll_simulates _ IH (length store) store2 _ Hordered2 Hleaf)
    as (Hordered' & Hlength' & Hframe' & Htree').
  fold (processNodeChildren isNameable isJSDocable node
          (details node (initial node))) in Htree'.
  fold (normalize isNameable isJSDocable node) in Htree'.
  set (store' := store_processAll (getChildren node) (length store) store2) in *.
  assert (∀ l, (l < length store)%nat → l ≠ parent → store' !! l = store !! l)
    as Hframe.
  { intros l Hl Hne. rewrite Hframe' by lia. by apply Hframe2. }
  split_and!; [done | lia | done |].
  assert (∀ refs, store !! parent = Some (Store.object_of tree refs) →
            store' !! parent
              = Some (Store.object_of
                        (push_child (normalize isNameable isJSDocable node) tree)
                        (Some (default [] refs ++ [length store]))))
    as Hpushed.
  { intros refs Hold. rewrite Hframe' by lia. unfold store2.
    by rewrite (push_lookup_eq _ _ _ tree refs)
      by (by rewrite lookup_app_l by done). }
  destruct Htree as [parent tree Hold Hchildren
                    |parent tree refs trees Hold Hchildren Hall].
  - apply (Store.represents_inner _ _ _ [length store]
             [normalize isNameable isJSDocable node]).
    + by apply (Hpushed None).
    + unfold push_child; simpl. by rewrite Hchildren.
    + constructor; [exact Htree' | constructor].
  - apply (Store.represents_inner _ _ _ (refs ++ [length store])
             (trees ++ [normalize isNameable isJSDocable node])).
    + by apply (Hpushed (Some refs)).
    + unfold push_child; simpl. by rewrite Hchildren.
    + apply Forall2_app; [|constructor; [exact Htree' | constructor]].
      assert (∀ child, child ∈ refs → (parent < child < length store)%nat)
        as Hforward.
      { intros child Hchild. by eapply (Hordered parent _ refs child). }
      clear Hold Hchildren Hpushed.
      induction Hall as [|child t refs trees Hchild Hall IHall]; constructor.
      * eapply represents_frame; [exact Hordered| |exact Hchild].
        intros l Hl ?. apply Hframe; [done|].
        assert (parent < child)%nat by (apply Hforward; set_solver). lia.
      * apply IHall. intros c Hc. apply Hforward. set_solver.
Qed.

(** The tree function computes the tree the store holds: after
    [createNodeFromSourceFile], following the references from [fileNode]
    reads exactly the tree [createNodeFromSourceFile] of the model returns. *)
Lemma createNodeFromSourceFile_represents sourceFile :
  Store.represents
    (Store.createNodeFromSourceFile isNameable isJSDocable basename sourceFile)
    0%nat
    (createNodeFromSourceFile isNameable isJSDocable basename sourceFile).
Proof.
  unfold Store.createNodeFromSourceFile, createNodeFromSourceFile.
  apply processAll_simulates.
  - apply Forall_forall. intros node _. apply processNode_simulates.
  - intros ref object refs child Hlookup Hrefs Hchild.
    apply list_lookup_singleton_Some in Hlookup as [-> <-].
    simpl in Hrefs. injection Hrefs as <-. by apply elem_of_nil in Hchild.
  - eapply Store.represents_inner; [done | done | constructor].
Qed.

End StoreSimulation.

(** The store built for the sample file, read back. *)
Example read_sample_store :
  Store.read 3
    (Store.createNodeFromSourceFile Sample.never Sample.never Sample.basename
       Sample.sourceFile) 0
  = Some Sample.root_ast.
Proof. vm_compute. reflexivity. Qed.

(** ** Attribute extraction *)

Lemma has_kind_eq k node : getKind node = k → has_kind k node = true.
Proof. intros. unfold has_kind. by apply bool_decide_eq_true_2. Qed.

Lemma has_kind_ne k node : getKind node ≠ k → has_kind k node = false.
Proof. intros. unfold has_kind. by apply bool_decide_eq_false_2. Qed.

(** Unfold [getNodeAttributes] and settle every kind guard in it from
    [Hk : getKind node = _]. *)
Ltac settle_guards Hk :=
  cbv delta [getNodeAttributes isClassDeclaration isFunctionDeclaration
    isMethodDeclaration isConstructorDeclaration isInterfaceDeclaration
    isVariableDeclaration isPropertyDeclaration isIdentifier
    isSignaturedDeclaration has_kind] beta;
  rewrite ?Hk;
  repeat match goal with
    | |- context [bool_decide (?a = ?b)] =>
        first [ rewrite (bool_decide_eq_true_2 (a = b)) by reflexivity
              | rewrite (bool_decide_eq_false_2 (a = b)) by discriminate ]
    end;
  cbn [orb andb negb].

Lemma is_function_like_cases node :
  is_function_like node →
  getKind node = FunctionDeclaration ∨ getKind node = MethodDeclaration
  ∨ getKind node = Constructor.
Proof. unfold is_function_like. set_solver. Qed.







(** The keys [getNodeAttributes] sets lie in the vocabulary of the kind. *)
Lemma getNodeAttributes_vocabulary node key :
  key ∈ dom (getNodeAttributes node) → key ∈ vocabulary (getKindName node).
Proof.
  unfold getKindName.
  destruct (getKind node) eqn:Hk; settle_guards Hk; simpl;
    repeat case_match; rewrite ?dom_insert_L, ?dom_empty_L;
    try set_solver.
Qed.

(** ** The output tree *)

Lemma spans_nested_unfold node :
  spans_nested node =
    forallb (λ child,
               bool_decide (getStartLineNumber node ≤ getStartLineNumber child)
               && bool_decide (getEndLineNumber child ≤ getEndLineNumber node)
               && spans_nested child)
            (getChildren node).
Proof. by destruct node. Qed.

Lemma spans_nested_child node child :
  spans_nested node = true → child ∈ getChildren node →
  getStartLineNumber node ≤ getStartLineNumber child
  ∧ getEndLineNumber child ≤ getEndLineNumber node
  ∧ spans_nested child = true.
Proof.
  rewrite spans_nested_unfold, forallb_forall. intros Hall Hin.
  apply list_elem_of_In, Hall in Hin.
  apply andb_prop in Hin as [[Hs He]%andb_prop Hn].
  by apply bool_decide_eq_true_1 in Hs, He.
Qed.

Lemma spans_nested_descendant node d :
  descendant d node → spans_nested node = true → spans_nested d = true.
Proof.
  induction 1 as [|n c Hc _ IH]; [done|]. intros Hn.
  apply IH. by eapply spans_nested_child.
Qed.

Lemma file_spans_nested_statement sourceFile statement :
  file_spans_nested sourceFile = true →
  statement ∈ getStatements sourceFile →
  1 ≤ getStartLineNumber statement
  ∧ getEndLineNumber statement ≤ sf_getEndLineNumber sourceFile
  ∧ spans_nested statement = true.
Proof.
  unfold file_spans_nested. rewrite forallb_forall. intros Hall Hin.
  apply list_elem_of_In, Hall in Hin.
  apply andb_prop in Hin as [[Hs He]%andb_prop Hn].
  by apply bool_decide_eq_true_1 in Hs, He.
Qed.

Lemma shouldSkipNode_kind node :
  shouldSkipNode node = true ↔
  getKind node = EndOfFileToken ∨ getKind node = SemicolonToken
  ∨ getKind node = CommaToken.
Proof.
  unfold shouldSkipNode. rewrite bool_decide_eq_true. set_solver.
Qed.

Section Tree.

Variable isNameable : Node → bool.
Variable isJSDocable : Node → bool.
Variable basename : string → string.

Abbreviation process_node := (processNode isNameable isJSDocable).
Abbreviation root := (createNodeFromSourceFile isNameable isJSDocable basename).
Abbreviation norm := (normalize isNameable isJSDocable).

Lemma kept_nil_iff nodes :
  kept nodes = [] ↔ Forall (λ node, shouldSkipNode node = true) nodes.
Proof.
  unfold kept. induction nodes as [|node nodes IH]; [done|].
  rewrite filter_cons, Forall_cons.
  destruct (shouldSkipNode node) eqn:Hskip; case_decide; naive_solver.
Qed.

(** C2, amended: the normalizer drops a node, subtree included, exactly when
    its kind is one of the three noise kinds, and keeps a node of every
    other kind.  The children of the root are the statements that are kept,
    in order, so the list is empty exactly when every statement is itself of
    a noise kind; a kept node whose children are all noise tokens, such as
    the [EmptyStatement] the parser wraps a lone [;] in, is output without a
    [children] field. *)
Theorem noise_filtering :
  (∀ node, shouldSkipNode node = true ↔
           getKind node = EndOfFileToken ∨ getKind node = SemicolonToken
           ∨ getKind node = CommaToken)
  ∧ (∀ node parent,
       shouldSkipNode node = true → process_node node parent = parent)
  ∧ (∀ node parent,
       shouldSkipNode node = false →
       process_node node parent
         = set_children (default [] (children parent) ++ [norm node]) parent
       ∧ nodeType (norm node) = getKindName node)
  ∧ (∀ sourceFile,
       children (root sourceFile)
         = Some (norm <$> filter (λ node, shouldSkipNode node = false)
                                 (getStatements sourceFile)))
  ∧ (∀ sourceFile,
       children (root sourceFile) = Some []
       ↔ Forall (λ statement,
                   getKind statement
                     ∈ [EndOfFileToken; SemicolonToken; CommaToken])
                (getStatements sourceFile))
  ∧ (∀ node,
       shouldSkipNode node = false →
       Forall (λ child, shouldSkipNode child = true) (getChildren node) →
       children (norm node) = None).
Proof.
  split_and!.
  - apply shouldSkipNode_kind.
  - intros node parent Hskip. by rewrite processNode_unfold, Hskip.
  - intros node parent Hskip. rewrite processNode_unfold, Hskip.
    split; [done | apply normalize_nodeType].
  - intros sourceFile. by rewrite createNodeFromSourceFile_spec.
  - intros sourceFile. rewrite createNodeFromSourceFile_spec. simpl.
    assert (Forall (λ statement,
                      getKind statement
                        ∈ [EndOfFileToken; SemicolonToken; CommaToken])
                   (getStatements sourceFile)
            ↔ kept (getStatements sourceFile) = []) as ->.
    { rewrite kept_nil_iff. apply Forall_iff. intros node.
      rewrite shouldSkipNode_kind. set_solver. }
    split.
    + intros [= Hnil]. by apply fmap_nil_inv in Hnil.
    + by intros ->.
  - intros node _ Hall. rewrite normalize_children.
    apply kept_nil_iff in Hall. by rewrite Hall.
Qed.

(** C5: when the parser reports every child span inside its parent's span,
    every node of the output tree that has a parent starts no earlier and
    ends no later than that parent. *)
Theorem span_containment sourceFile parent node :
  file_spans_nested sourceFile = true →
  subnode parent (root sourceFile) →
  child_of node parent →
  ∃ parentStart parentEnd nodeStart nodeEnd,
    startLine parent = Some parentStart ∧ endLine parent = Some parentEnd
    ∧ startLine node = Some nodeStart ∧ endLine node = Some nodeEnd
    ∧ parentStart ≤ nodeStart ∧ nodeEnd ≤ parentEnd.
Proof.
  intros Hfile Hparent Hchild.
  apply subnode_root in Hparent as [->|(statement & p & Hin & Hdesc & ->)].
  - apply child_of_root in Hchild as (statement & Hin & _ & ->).
    destruct (file_spans_nested_statement _ _ Hfile Hin) as (Hs & He & _).
    rewrite createNodeFromSourceFile_spec; simpl.
    rewrite normalize_startLine, normalize_endLine. naive_solver.
  - apply child_of_normalize in Hchild as (child & Hc & _ & ->).
    destruct (file_spans_nested_statement _ _ Hfile Hin) as (_ & _ & Hst).
    pose proof (spans_nested_descendant _ _ Hdesc Hst) as Hp.
    destruct (spans_nested_child _ _ Hp Hc) as (Hs & He & _).
    rewrite !normalize_startLine, !normalize_endLine. naive_solver.
Qed.

(** C7: in the output tree, the keys of a node's [attributes] all belong to
    the vocabulary that §4.1 fixes for the node's kind. *)
Theorem attribute_vocabulary_closure sourceFile node attrs key :
  subnode node (root sourceFile) →
  attributes node = Some attrs →
  key ∈ dom attrs →
  key ∈ vocabulary (nodeType node).
Proof.
  intros [->|(statement & n & _ & _ & ->)]%subnode_root Hattrs Hkey.
  - by rewrite createNodeFromSourceFile_spec in Hattrs.
  - rewrite normalize_attributes in Hattrs. rewrite normalize_nodeType.
    case_bool_decide; [|done]. injection Hattrs as <-.
    by apply getNodeAttributes_vocabulary.
Qed.

(** C8: no node of the output tree carries an empty [attributes] mapping,
    no node below the root carries an empty [children] list, and the root
    always carries a [children] list, empty when nothing is kept. *)
Theorem empty_fields_omitted sourceFile :
  (∀ node, subnode node (root sourceFile) → attributes node ≠ Some ∅)
  ∧ (∀ node, below node (root sourceFile) → children node ≠ Some [])
  ∧ is_Some (children (root sourceFile))
  ∧ (Forall (λ statement, shouldSkipNode statement = true)
            (getStatements sourceFile) →
     children (root sourceFile) = Some []).
Proof.
  split_and!.
  - intros node [->|(statement & n & _ & _ & ->)]%subnode_root.
    + by rewrite createNodeFromSourceFile_spec.
    + rewrite normalize_attributes. case_bool_decide as Hsize; [|done].
      intros [= Hempty]. rewrite Hempty, map_size_empty in Hsize. lia.
  - intros node (statement & n & _ & _ & ->)%below_root.
    rewrite normalize_children. by case_match.
  - rewrite createNodeFromSourceFile_spec. by eexists.
  - intros Hall%kept_nil_iff. rewrite createNodeFromSourceFile_spec. simpl.
    by rewrite Hall.
Qed.

End Tree.

(** Membership in a list written out. *)
Ltac pick := repeat first [apply list_elem_of_here | apply list_elem_of_further].

Lemma noise_filtering_witness :
  children (normalize Sample.nameable Sample.jsDocable Sample.empty_statement)
    = None
  ∧ children (createNodeFromSourceFile Sample.nameable Sample.jsDocable
                Sample.basename Sample.empty_file) = Some [].
Proof.
  destruct (noise_filtering Sample.nameable Sample.jsDocable Sample.basename)
    as (_ & _ & _ & _ & Hroot & Hnode).
  split.
  - apply Hnode; [reflexivity|]. repeat constructor.
  - apply Hroot. constructor.
Defined.

(** C2, as stated, fails: the file [;] holds a statement terminator and
    nothing else, yet its root gets a child: the [EmptyStatement] the parser
    reports for the token, which is of no noise kind. *)
Lemma semicolon_file_keeps_a_child :
  only_noise_tokens Sample.semicolon_file = true
  ∧ children (createNodeFromSourceFile Sample.nameable Sample.jsDocable
                Sample.basename Sample.semicolon_file)
    = Some [MkASTNode "EmptyStatement" None (Some 1) (Some 1)
              None None None None]
  ∧ ¬ noise_only_file_as_specified Sample.nameable Sample.jsDocable
        Sample.basename Sample.semicolon_file.
Proof.
  assert (children (createNodeFromSourceFile Sample.nameable Sample.jsDocable
                      Sample.basename Sample.semicolon_file)
          = Some [MkASTNode "EmptyStatement" None (Some 1) (Some 1)
                    None None None None]) as Hchildren.
  { vm_compute. reflexivity. }
  split_and!; [reflexivity | exact Hchildren |].
  intros Hspec. specialize (Hspec eq_refl). by rewrite Hchildren in Hspec.
Qed.

Lemma span_containment_witness :
  file_spans_nested Sample.sourceFile = true
  ∧ subnode Sample.class_ast Sample.root_ast
  ∧ child_of Sample.property_ast Sample.class_ast
  ∧ ∃ parentStart parentEnd nodeStart nodeEnd,
      startLine Sample.class_ast = Some parentStart
      ∧ endLine Sample.class_ast = Some parentEnd
      ∧ startLine Sample.property_ast = Some nodeStart
      ∧ endLine Sample.property_ast = Some nodeEnd
      ∧ parentStart ≤ nodeStart ∧ nodeEnd ≤ parentEnd.
Proof.
  assert (subnode Sample.class_ast Sample.root_ast) as Hsub.
  { eapply subnode_below; [vm_compute; reflexivity | | apply subnode_here].
    vm_compute. pick. }
  assert (child_of Sample.property_ast Sample.class_ast) as Hchild.
  { eexists. split; [vm_compute; reflexivity|]. vm_compute. pick. }
  split_and!; [reflexivity | exact Hsub | exact Hchild |].
  exact (span_containment Sample.never Sample.never Sample.basename
           Sample.sourceFile Sample.class_ast Sample.property_ast
           eq_refl Hsub Hchild).
Defined.

Lemma attribute_vocabulary_closure_witness :
  subnode Sample.function_ast Sample.root_ast
  ∧ attributes Sample.function_ast
      = Some (getNodeAttributes Sample.annotated_function)
  ∧ "returnType" ∈ dom (getNodeAttributes Sample.annotated_function)
  ∧ "returnType" ∈ vocabulary (nodeType Sample.function_ast).
Proof.
  assert (subnode Sample.function_ast Sample.root_ast) as Hsub.
  { eapply subnode_below; [vm_compute; reflexivity | | apply subnode_here].
    vm_compute. pick. }
  assert (attributes Sample.function_ast
          = Some (getNodeAttributes Sample.annotated_function)) as Hattrs.
  { vm_compute. reflexivity. }
  assert ("returnType" ∈ dom (getNodeAttributes Sample.annotated_function))
    as Hkey.
  { apply elem_of_dom. vm_compute. by eexists. }
  split_and!; [exact Hsub | exact Hattrs | exact Hkey |].
  exact (attribute_vocabulary_closure Sample.never Sample.never Sample.basename
           Sample.sourceFile Sample.function_ast _ "returnType"
           Hsub Hattrs Hkey).
Defined.

Lemma empty_fields_omitted_witness :
  children Sample.root_ast ≠ Some []
  ∧ children Sample.class_ast ≠ Some []
  ∧ attributes Sample.function_ast ≠ Some ∅.
Proof.
  pose proof (empty_fields_omitted Sample.never Sample.never Sample.basename
                Sample.sourceFile) as (Hattrs & Hchildren & _ & _).
  assert (child_of Sample.class_ast Sample.root_ast) as Hclass.
  { eexists. split; [vm_compute; reflexivity|]. vm_compute. pick. }
  assert (child_of Sample.function_ast Sample.root_ast) as Hfun.
  { eexists. split; [vm_compute; reflexivity|]. vm_compute. pick. }
  split_and!.
  - vm_compute. discriminate.
  - apply Hchildren. exists Sample.class_ast. split; [exact Hclass | constructor].
  - apply Hattrs. destruct Hfun as (cs & Hcs & Hin).
    eapply subnode_below; [exact Hcs | exact Hin | constructor].
Defined.

(** ** Effects *)

Lemma bind_normal {A B} (m : Eff A) (f : A → Eff B) a :
  completion m = Normal a →
  m ≫= f = MkEff (trace m ++ trace (f a)) (completion (f a)).
Proof. intros Hm. unfold mbind, Eff_bind. by rewrite Hm. Qed.

Lemma bind_throw {A B} (m : Eff A) (f : A → Eff B) error :
  completion m = Throw error → m ≫= f = MkEff (trace m) (Throw error).
Proof. intros Hm. unfold mbind, Eff_bind. by rewrite Hm. Qed.

Lemma completion_bind {A B} (m : Eff A) (f : A → Eff B) a :
  completion m = Normal a → completion (m ≫= f) = completion (f a).
Proof. intros Hm. by rewrite (bind_normal _ _ _ Hm). Qed.

Lemma completion_host_bind {A B} event (a : A) (f : A → Eff B) :
  completion (host event (Normal a) ≫= f) = completion (f a).
Proof. done. Qed.

Lemma try_catch_normal {A} (m : Eff A) handler a :
  completion m = Normal a → try_catch m handler = m.
Proof. intros Hm. unfold try_catch. by rewrite Hm. Qed.

Lemma eff_eta {A} (m : Eff A) : MkEff (trace m) (completion m) = m.
Proof. by destruct m. Qed.

Lemma bind_ret_l {A B} (a : A) (f : A → Eff B) : mret a ≫= f = f a.
Proof. unfold mbind, Eff_bind, mret, Eff_ret. simpl. apply eff_eta. Qed.

Lemma bind_assoc {A B C} (m : Eff A) (f : A → Eff B) (g : B → Eff C) :
  (m ≫= f) ≫= g = m ≫= (λ a, f a ≫= g).
Proof.
  unfold mbind, Eff_bind.
  destruct (completion m) as [a|error]; simpl; [|done].
  destruct (completion (f a)) as [b|error]; simpl; [|done].
  by rewrite app_assoc.
Qed.

Lemma bind_ext {A B} (m : Eff A) (f g : A → Eff B) :
  (∀ a, f a = g a) → m ≫= f = m ≫= g.
Proof.
  intros Hfg. unfold mbind, Eff_bind.
  destruct (completion m); [by rewrite Hfg | done].
Qed.

(** ** The single-file pipeline *)


Lemma string_app_empty_r s : s +:+ "" = s.
Proof.
  induction s as [|a s IH]; [done|].
  change (String a s +:+ "") with (String a (s +:+ "")). by rewrite IH.
Qed.

Lemma string_app_assoc s1 s2 s3 : (s1 +:+ s2) +:+ s3 = s1 +:+ s2 +:+ s3.
Proof.
  induction s1 as [|a s1 IH]; [done|].
  change (String a (s1 +:+ s2) +:+ s3 = String a (s1 +:+ s2 +:+ s3)).
  change (String a ((s1 +:+ s2) +:+ s3) = String a (s1 +:+ s2 +:+ s3)).
  by rewrite IH.
Qed.


(** How the first copy of [parseTypeScriptFile] ends, case by case. *)
Lemma parseTypeScriptFile_cases env filePath :
  V1.parseTypeScriptFile env filePath =
    match access env filePath with
    | Some _ => MkEff [Access filePath] (Normal (file_outcome env filePath))
    | None =>
        MkEff [Access filePath; AddSourceFileAtPath filePath]
              (Normal (file_outcome env filePath))
    end.
Proof.
  unfold V1.parseTypeScriptFile, file_outcome, try_catch, host, mbind,
    Eff_bind, mret, Eff_ret; simpl.
  destruct (access env filePath); simpl; [done|].
  by destruct (addSourceFileAtPath env filePath).
Qed.

Lemma parseTypeScriptFile_completion env filePath :
  completion (V1.parseTypeScriptFile env filePath)
    = Normal (file_outcome env filePath).
Proof. rewrite parseTypeScriptFile_cases. by case_match. Qed.



(** ** The directory pipeline, first copy *)

Lemma record_all_cons env file files results :
  record_all env (file :: files) results
    = record_all env files
        (assign file (FileValue (file_outcome env file)) results).
Proof. done. Qed.

Lemma record_all_app env files1 files2 results :
  record_all env (files1 ++ files2) results
    = record_all env files2 (record_all env files1 results).
Proof. apply foldl_app. Qed.

Lemma lookup_assign key value results key' :
  assign key value results !! key' =
    if decide (key' = key ∧ key ≠ "__proto__") then Some value
    else results !! key'.
Proof.
  unfold assign. case_bool_decide as Hproto.
  - by rewrite decide_False by naive_solver.
  - destruct (decide (key' = key)) as [->|Hne].
    + rewrite decide_True by done. apply lookup_insert_eq.
    + rewrite decide_False by naive_solver. by apply lookup_insert_ne.
Qed.

(** An entry is written for each file of the list, but for a path
    [__proto__], which names no property. *)
Lemma record_all_lookup env files results file :
  record_all env files results !! file =
    if decide (file ∈ files ∧ file ≠ "__proto__")
    then Some (FileValue (file_outcome env file))
    else results !! file.
Proof.
  revert results. induction files as [|f files IH]; intros results.
  { by rewrite decide_False by set_solver. }
  rewrite record_all_cons, IH, lookup_assign.
  repeat case_decide; set_solver.
Qed.

Lemma record_all_dom env files file :
  file ∈ dom (record_all env files ∅) ↔ file ∈ files ∧ file ≠ "__proto__".
Proof.
  rewrite elem_of_dom, record_all_lookup.
  case_decide.
  - split; [done | by eexists].
  - rewrite lookup_empty. split; [by intros [? ?] | done].
Qed.

Lemma record_all_size env files results :
  NoDup files → "__proto__" ∉ files →
  (∀ file, file ∈ files → results !! file = None) →
  size (record_all env files results) = (size results + length files)%nat.
Proof.
  revert results.
  induction files as [|f files IH]; intros results Hnodup Hproto Hfresh.
  { simpl. lia. }
  apply NoDup_cons in Hnodup as [Hf Hnodup].
  rewrite record_all_cons, IH; [|done|set_solver|].
  - unfold assign. rewrite bool_decide_eq_false_2 by set_solver.
    rewrite map_size_insert_None by (apply Hfresh; set_solver). simpl. lia.
  - intros file Hin. rewrite lookup_assign, decide_False by set_solver.
    apply Hfresh. set_solver.
Qed.

(** The tasks of a chunk write disjoint keys: the order in which they
    complete does not show in the result. *)
Lemma record_all_Permutation env files files' results :
  files ≡ₚ files' → record_all env files results = record_all env files' results.
Proof.
  intros Hperm. apply map_eq. intros file. rewrite !record_all_lookup.
  destruct (decide (file ∈ files ∧ file ≠ "__proto__")) as [Hin|Hnotin].
  - by rewrite decide_True by (by rewrite <-Hperm).
  - by rewrite decide_False by (by rewrite <-Hperm).
Qed.

Lemma process_chunk_completion env chunk results :
  completion (V1.process_chunk env chunk results)
    = Normal (record_all env chunk results).
Proof.
  revert results. induction chunk as [|file chunk IH]; intros results; [done|].
  simpl. rewrite (completion_bind _ _ _ (parseTypeScriptFile_completion _ _)).
  apply IH.
Qed.

(** With fuel for every round, the loop records every file from index [i]
    on. *)
Lemma chunk_loop_completion env fuel files i results :
  (length files ≤ i + fuel * V1.CONCURRENCY_LIMIT)%nat →
  completion (V1.chunk_loop env fuel files i results)
    = Normal (record_all env (drop i files) results).
Proof.
  revert i results. induction fuel as [|fuel IH]; intros i results Hfuel; simpl.
  { rewrite drop_ge by lia. done. }
  case_bool_decide as Hi.
  - rewrite (completion_bind _ _ _ (process_chunk_completion _ _ _)).
    rewrite IH by (unfold V1.CONCURRENCY_LIMIT in *; lia).
    rewrite <-record_all_app. do 2 f_equal. unfold slice.
    replace (i + V1.CONCURRENCY_LIMIT - i)%nat with V1.CONCURRENCY_LIMIT by lia.
    rewrite <-drop_drop. apply take_drop.
  - rewrite drop_ge by lia. done.
Qed.

Lemma parseDirectory_completion env dirPath extensions events files :
  V1.findFilesRecursively env dirPath extensions = MkEff events (Normal files) →
  completion (V1.parseDirectory env dirPath extensions)
    = Normal (record_all env files ∅).
Proof.
  intros Hfiles. unfold V1.parseDirectory, try_catch. rewrite Hfiles.
  assert (completion (V1.chunk_loop env (length files) files 0 ∅)
          = Normal (record_all env files ∅)) as Hloop.
  { rewrite chunk_loop_completion by (unfold V1.CONCURRENCY_LIMIT; lia).
    by rewrite drop_0. }
  unfold mbind at 1, Eff_bind at 1; simpl.
  rewrite (completion_bind _ _ _ Hloop). simpl.
  by rewrite (completion_bind _ _ _ Hloop).
Qed.

Lemma file_outcome_with_parser env parser file :
  parser file = addSourceFileAtPath env file →
  file_outcome (with_parser parser env) file = file_outcome env file.
Proof. intros Hparser. unfold file_outcome; simpl. by rewrite Hparser. Qed.

(** *** The enumeration *)

Lemma Listing_ind (P : Listing → Prop) :
  (∀ error, P (ReaddirError error)) →
  (∀ entries,
     Forall (λ entry, match entry with
                      | DirentDirectory _ contents => P contents
                      | _ => True
                      end) entries →
     P (Entries entries)) →
  ∀ listing, P listing.
Proof.
  intros Herror Hentries. fix IH 1. intros [entries|error]; [|apply Herror].
  apply Hentries. induction entries as [|entry entries IHentries]; constructor.
  - destruct entry as [name|name contents|name]; [exact I | apply IH | exact I].
  - exact IHentries.
Qed.

Lemma host_then {A} event (m : Eff A) :
  (host event (Normal ());; m) = MkEff (event :: trace m) (completion m).
Proof. done. Qed.

Lemma traverse_unfold env extensions currentPath listing files :
  V1.traverse env extensions currentPath listing files =
    match listing with
    | ReaddirError error => host (Readdir currentPath) (Throw error)
    | Entries entries =>
        host (Readdir currentPath) (Normal ());;
        traverse_entries env extensions currentPath entries files
    end.
Proof.
  destruct listing as [entries|error]; [|done]. simpl.
  match goal with
  | |- Eff_bind _ _ (λ _, ?loop entries files) _ = _ =>
      assert (∀ entries files,
                loop entries files
                = traverse_entries env extensions currentPath entries files)
        as Hloop
  end.
  { clear. induction entries as [|entry entries IH]; intros files; [done|].
    simpl. unfold mbind, Eff_bind.
    match goal with
    | |- context [completion ?m] => destruct (completion m); [|done]
    end.
    by rewrite IH. }
  by rewrite Hloop.
Qed.

Lemma traverse_entries_cons env extensions currentPath entry entries files :
  traverse_entries env extensions currentPath (entry :: entries) files =
    (match entry with
     | DirentDirectory name contents =>
         if bool_decide (name ∈ V1.EXCLUDED_DIRS) then mret files
         else V1.traverse env extensions
                (path_join env currentPath (dirent_name entry)) contents files
     | DirentFile name =>
         if existsb (λ ext, endsWith name ext) extensions
         then mret (files ++ [path_join env currentPath (dirent_name entry)])
         else mret files
     | DirentOther _ => mret files
     end) ≫= traverse_entries env extensions currentPath entries.
Proof. done. Qed.

Lemma readable_cons entry entries :
  readable (Entries (entry :: entries)) =
    match entry with
    | DirentDirectory name contents =>
        bool_decide (name ∈ V1.EXCLUDED_DIRS) || readable contents
    | _ => true
    end && readable (Entries entries).
Proof. done. Qed.

Lemma matching_files_cons env extensions currentPath entry entries :
  matching_files env extensions currentPath (Entries (entry :: entries)) =
    match entry with
    | DirentDirectory name contents =>
        if bool_decide (name ∈ V1.EXCLUDED_DIRS) then []
        else matching_files env extensions
               (path_join env currentPath (dirent_name entry)) contents
    | DirentFile name =>
        if existsb (λ ext, endsWith name ext) extensions
        then [path_join env currentPath (dirent_name entry)] else []
    | DirentOther _ => []
    end ++ matching_files env extensions currentPath (Entries entries).
Proof. done. Qed.

(** The walk of a tree it can read returns the files of the tree, after
    those it was given; the walk of any other tree throws. *)
Lemma traverse_entries_completion env extensions currentPath entries :
  Forall (λ entry,
            match entry with
            | DirentDirectory _ contents =>
                ∀ currentPath,
                  traverse_outcome env extensions contents
                    (V1.traverse env extensions currentPath contents)
                    currentPath
            | _ => True
            end) entries →
  traverse_outcome env extensions (Entries entries)
    (traverse_entries env extensions currentPath entries) currentPath.
Proof.
  induction entries as [|entry entries IHentries]; intros IH files.
  { simpl. by rewrite app_nil_r. }
  apply Forall_cons in IH as [Hentry IH]. specialize (IHentries IH).
  rewrite readable_cons, matching_files_cons, traverse_entries_cons.
  unfold traverse_outcome in IHentries.
  remember (readable (Entries entries)) as rest eqn:Hrest.
  remember (matching_files env extensions currentPath (Entries entries))
    as found eqn:Hfound.
  clear Hrest Hfound IH.
  destruct entry as [name|name contents|name]; cbn [dirent_name orb andb].
  - destruct (existsb _ extensions).
    + rewrite (completion_bind _ _ (files ++ [path_join env currentPath name]))
        by done.
      specialize (IHentries (files ++ [path_join env currentPath name])).
      destruct rest; [|done]. by rewrite IHentries, <-app_assoc.
    + rewrite (completion_bind _ _ files) by done. apply IHentries.
  - case_bool_decide as Hexcluded; cbn [orb andb].
    { rewrite (completion_bind _ _ files) by done. apply IHentries. }
    specialize (Hentry (path_join env currentPath name) files).
    destruct (readable contents); cbn [orb andb].
    + rewrite (completion_bind _ _ _ Hentry).
      specialize (IHentries
        (files ++ matching_files env extensions
                    (path_join env currentPath name) contents)).
      destruct rest; [|done]. by rewrite IHentries, <-app_assoc.
    + destruct Hentry as [error Hentry]. exists error.
      unfold mbind, Eff_bind. by rewrite Hentry.
  - rewrite (completion_bind _ _ files) by done. apply IHentries.
Qed.

Lemma traverse_completion env extensions listing :
  ∀ currentPath,
    traverse_outcome env extensions listing
      (V1.traverse env extensions currentPath listing) currentPath.
Proof.
  induction listing as [error|entries IH] using Listing_ind;
    intros currentPath files.
  { by exists error. }
  rewrite traverse_unfold, host_then.
  by apply traverse_entries_completion.
Qed.

Lemma findFilesRecursively_readable env dirPath extensions :
  readable (readdir env dirPath) = true →
  completion (V1.findFilesRecursively env dirPath extensions)
    = Normal (matching_files env extensions dirPath (readdir env dirPath)).
Proof.
  intros Hreadable. unfold V1.findFilesRecursively.
  pose proof (traverse_completion env extensions (readdir env dirPath)
                dirPath []) as Hrun.
  unfold traverse_outcome in Hrun. by rewrite Hreadable in Hrun.
Qed.

Lemma findFilesRecursively_unreadable env dirPath extensions :
  readable (readdir env dirPath) = false →
  ∃ error,
    completion (V1.findFilesRecursively env dirPath extensions) = Throw error.
Proof.
  intros Hreadable. unfold V1.findFilesRecursively.
  pose proof (traverse_completion env extensions (readdir env dirPath)
                dirPath []) as Hrun.
  unfold traverse_outcome in Hrun. by rewrite Hreadable in Hrun.
Qed.

Lemma parseDirectory_enumeration_fails env dirPath extensions events error :
  V1.findFilesRecursively env dirPath extensions = MkEff events (Throw error) →
  V1.parseDirectory env dirPath extensions
    = MkEff events
        (Normal {[ dirPath :=
                     FileValue (ErrorEnvelope
                       ("Failed to parse directory " +:+ dirPath +:+ ": "
                        +:+ error_message error)) ]}).
Proof.
  intros Hrun. unfold V1.parseDirectory, try_catch.
  rewrite Hrun. simpl. by rewrite app_nil_r.
Qed.

(** C6, as stated, fails: in the directory [locked] the walk finds
    [locked/a.ts] and then a subdirectory that cannot be read; the result has
    the one entry of the failed walk, under the directory path, and none for
    the file. *)
Lemma parseDirectory_v1_unreadable_subdirectory :
  "locked/a.ts" ∈ matching_files Sample2.locked_host [".ts"; ".tsx"] "locked"
                    (readdir Sample2.locked_host "locked")
  ∧ (∃ results,
       V1.parseDirectory Sample2.locked_host "locked" [".ts"; ".tsx"]
         = MkEff [Readdir "locked"; Readdir "locked/private"] (Normal results)
       ∧ results
         = {[ "locked" :=
                FileValue (ErrorEnvelope
                  "Failed to parse directory locked: EACCES: permission denied, scandir 'locked/private'") ]}
       ∧ "locked/a.ts" ∉ dom results)
  ∧ ¬ one_entry_per_file_as_specified Sample2.locked_host "locked"
        [".ts"; ".tsx"].
Proof.
  assert ("locked/a.ts"
            ∈ matching_files Sample2.locked_host [".ts"; ".tsx"] "locked"
                (readdir Sample2.locked_host "locked")) as Hfile.
  { vm_compute. pick. }
  assert (V1.parseDirectory Sample2.locked_host "locked" [".ts"; ".tsx"]
          = MkEff [Readdir "locked"; Readdir "locked/private"]
              (Normal {[ "locked" :=
                FileValue (ErrorEnvelope
                  "Failed to parse directory locked: EACCES: permission denied, scandir 'locked/private'") ]}))
    as Hrun.
  { rewrite (parseDirectory_enumeration_fails Sample2.locked_host "locked"
               [".ts"; ".tsx"] [Readdir "locked"; Readdir "locked/private"]
               (ErrorObject "Error"
                  "EACCES: permission denied, scandir 'locked/private'"));
      [reflexivity | vm_compute; reflexivity]. }
  assert ("locked/a.ts" ∉ dom
            ({[ "locked" :=
                  FileValue (ErrorEnvelope
                    "Failed to parse directory locked: EACCES: permission denied, scandir 'locked/private'") ]}
             : gmap string Value)) as Hmissing.
  { rewrite dom_singleton_L. set_solver. }
  split_and!; [exact Hfile | by eexists |].
  intros Hspec. apply Hmissing. eapply Hspec; [by rewrite Hrun | exact Hfile].
Qed.

Lemma matching_files_path_join env env' extensions listing :
  path_join env = path_join env' →
  ∀ currentPath,
    matching_files env extensions currentPath listing
      = matching_files env' extensions currentPath listing.
Proof.
  intros Hjoin.
  induction listing as [error|entries IH] using Listing_ind;
    intros currentPath; [done|].
  induction entries as [|entry entries IHentries]; [done|].
  apply Forall_cons in IH as [Hentry IH].
  rewrite !matching_files_cons, (IHentries IH), Hjoin.
  destruct entry as [name|name contents|name]; [done| |done].
  by rewrite Hentry.
Qed.

(** C6, amended: in every run of [parseDirectory] in which each directory
    the walk enters can be read, the result has exactly one entry for each
    enumerated file, the one [parseTypeScriptFile] returns for it (a path
    [__proto__] apart, which names no property of the result): a file the
    parser rejects gets an error entry under its own key, and changing what
    the parser does with one file changes no other entry.  In every other
    run the walk fails and the result is the single error entry under the
    directory path. *)
Theorem parseDirectory_one_entry_per_file env dirPath extensions :
  (readable (readdir env dirPath) = true →
   ∃ files results,
     files = matching_files env extensions dirPath (readdir env dirPath)
     ∧ completion (V1.findFilesRecursively env dirPath extensions)
       = Normal files
     ∧ completion (V1.parseDirectory env dirPath extensions) = Normal results
     ∧ (∀ file, file ∈ dom results ↔ file ∈ files ∧ file ≠ "__proto__")
     ∧ (NoDup files → "__proto__" ∉ files → size results = length files)
     ∧ (∀ file, file ∈ files → file ≠ "__proto__" →
          ∃ result,
            completion (V1.parseTypeScriptFile env file) = Normal result
            ∧ results !! file = Some (FileValue result))
     ∧ (∀ file error,
          file ∈ files → file ≠ "__proto__" → access env file = None →
          addSourceFileAtPath env file = Throw error →
          results !! file
            = Some (FileValue (ErrorEnvelope
                      ("Failed to parse " +:+ file +:+ ": "
                       +:+ error_message error))))
     ∧ (∀ broken parser,
          (∀ path, path ≠ broken → parser path = addSourceFileAtPath env path) →
          ∃ results',
            completion (V1.parseDirectory (with_parser parser env)
                          dirPath extensions) = Normal results'
            ∧ ∀ file, file ≠ broken → results' !! file = results !! file))
  ∧ (readable (readdir env dirPath) = false →
     ∃ events error,
       V1.findFilesRecursively env dirPath extensions
         = MkEff events (Throw error)
       ∧ V1.parseDirectory env dirPath extensions
         = MkEff events
             (Normal {[ dirPath :=
                          FileValue (ErrorEnvelope
                            ("Failed to parse directory " +:+ dirPath +:+ ": "
                             +:+ error_message error)) ]})).
Proof.
  split.
  - intros Hreadable.
    pose proof (findFilesRecursively_readable env dirPath extensions Hreadable)
      as Hfiles.
    set (files := matching_files env extensions dirPath (readdir env dirPath))
      in *.
    assert (∀ env', readdir env' = readdir env → path_join env' = path_join env →
              completion (V1.parseDirectory env' dirPath extensions)
              = Normal (record_all env' files ∅)) as Hrun.
    { intros env' Hreaddir Hjoin.
      destruct (V1.findFilesRecursively env' dirPath extensions)
        as [events c] eqn:Hrun.
      apply (parseDirectory_completion _ _ _ events). rewrite Hrun. f_equal.
      pose proof (findFilesRecursively_readable env' dirPath extensions)
        as Hfiles'.
      rewrite Hrun, Hreaddir in Hfiles'. simpl in Hfiles'.
      rewrite (Hfiles' Hreadable). f_equal.
      by rewrite (matching_files_path_join env' env). }
    exists files, (record_all env files ∅). split_and!.
    + done.
    + done.
    + by apply Hrun.
    + apply record_all_dom.
    + intros Hnodup Hproto. by rewrite record_all_size.
    + intros file Hin Hproto. exists (file_outcome env file). split.
      * apply parseTypeScriptFile_completion.
      * by rewrite record_all_lookup, decide_True.
    + intros file error Hin Hproto Haccess Hparse.
      rewrite record_all_lookup, decide_True by done.
      unfold file_outcome. by rewrite Haccess, Hparse.
    + intros broken parser Hparser.
      exists (record_all (with_parser parser env) files ∅). split.
      * by apply Hrun.
      * intros file Hne. rewrite !record_all_lookup.
        case_decide; [|done]. by rewrite file_outcome_with_parser by auto.
  - intros Hreadable.
    destruct (findFilesRecursively_unreadable env dirPath extensions Hreadable)
      as [error Hthrow].
    destruct (V1.findFilesRecursively env dirPath extensions)
      as [events c] eqn:Hrun.
    simpl in Hthrow. subst c. exists events, error. split; [done|].
    by apply parseDirectory_enumeration_fails.
Qed.

Lemma parseDirectory_one_entry_per_file_witness :
  readable (readdir Sample.host "repo") = true
  ∧ ∃ results,
      completion (V1.parseDirectory Sample.host "repo" [".ts"; ".tsx"])
        = Normal results
      ∧ size results = 3%nat
      ∧ results !! "repo/broken.ts"
          = Some (FileValue (ErrorEnvelope
                    "Failed to parse repo/broken.ts: Cannot read repo/broken.ts"))
      ∧ results !! "repo/src/b.tsx"
          = Some (FileValue (Success (V1.createNodeFromSourceFile Sample.host
                                        Sample.semicolon_file))).
Proof.
  split; [reflexivity|].
  destruct (proj1 (parseDirectory_one_entry_per_file Sample.host "repo"
                     [".ts"; ".tsx"]) eq_refl)
    as (files & results & Hfiles & _ & Hresults & _ & Hsize & Hentry
        & Hbroken & _).
  assert (files = ["repo/a.ts"; "repo/broken.ts"; "repo/src/b.tsx"]) as ->.
  { rewrite Hfiles. vm_compute. reflexivity. }
  exists results. split_and!.
  - exact Hresults.
  - apply Hsize; by apply (bool_decide_unpack _).
  - apply (Hbroken "repo/broken.ts"
             (ErrorObject "Error" "Cannot read repo/broken.ts"));
      [pick | discriminate | reflexivity | reflexivity].
  - destruct (Hentry "repo/src/b.tsx") as (result & Hresult & ->);
      [pick | discriminate |].
    rewrite parseTypeScriptFile_completion in Hresult.
    injection Hresult as <-. reflexivity.
Defined.

(** ** The directory pipeline: a path that is not a directory *)

Lemma top_level_envelope_not_per_file results :
  top_level_envelope results → ¬ per_file_shaped results.
Proof.
  intros [message ->] Hshape.
  destruct (Hshape "error" (StringValue message)) as [result Hresult]; [|done].
  apply lookup_singleton_eq.
Qed.

Lemma per_file_shaped_empty : per_file_shaped ∅.
Proof. intros key value. by rewrite lookup_empty. Qed.

Lemma per_file_shaped_assign key result results :
  per_file_shaped results →
  per_file_shaped (assign key (FileValue result) results).
Proof.
  intros Hshape key' value. rewrite lookup_assign. case_decide; [|apply Hshape].
  intros [= <-]. by eexists.
Qed.

Lemma per_file_shaped_insert key result results :
  per_file_shaped results →
  per_file_shaped (<[key := FileValue result]> results).
Proof.
  intros Hshape key' value. destruct (decide (key = key')) as [->|Hne].
  - rewrite lookup_insert_eq. intros [= <-]. by eexists.
  - rewrite lookup_insert_ne by done. apply Hshape.
Qed.

(** The second copy's [traverse] catches every failure of [readdir]. *)
Lemma traverse_v2_returns env extensions listing :
  ∀ currentPath files,
    ∃ files', completion (V2.traverse env extensions currentPath listing files)
              = Normal files'.
Proof.
  induction listing as [error|entries IH] using Listing_ind;
    intros currentPath files.
  { by exists files. }
  simpl. unfold try_catch.
  match goal with
  | |- ∃ _, completion (match completion ?m with _ => _ end) = _ =>
      assert (∃ files', completion m = Normal files') as [files' Hm]
  end.
  { unfold mbind at 1, Eff_bind at 1; simpl.
    revert files. induction entries as [|entry entries IHentries]; intros files.
    { by eexists. }
    apply Forall_cons in IH as [Hentry IH].
    specialize (IHentries IH).
    assert (∃ files1,
              completion
                match entry with
                | DirentFile name =>
                    if bool_decide (path_extname env name ∈ extensions)
                    then mret (files ++ [path_join env currentPath (dirent_name entry)])
                    else mret files
                | DirentDirectory name contents =>
                    if bool_decide (name ≠ "node_modules")
                       && bool_decide (name ≠ ".git")
                       && bool_decide (name ≠ "dist")
                       && bool_decide (name ≠ ".venv")
                    then V2.traverse env extensions
                           (path_join env currentPath (dirent_name entry))
                           contents files
                    else mret files
                | DirentOther _ => mret files
                end = Normal files1) as [files1 Hfiles1].
    { destruct entry as [name|name contents|name].
      - case_bool_decide; by eexists.
      - destruct (_ && _); [|by eexists].
        apply Hentry.
      - by eexists. }
    rewrite (completion_bind _ _ _ Hfiles1). apply IHentries. }
  rewrite Hm. by exists files'.
Qed.

Lemma add_files_returns env files :
  ∀ project results,
    per_file_shaped results →
    ∃ project' results',
      completion (V2.add_files env files project results)
        = Normal (project', results')
      ∧ per_file_shaped results'.
Proof.
  induction files as [|file files IH]; intros project results Hshape; simpl.
  { by exists project, results. }
  match goal with
  | |- ∃ _ _, completion (?m ≫= _) = _ ∧ _ =>
      assert (∃ project1 results1,
                completion m = Normal (project1, results1)
                ∧ per_file_shaped results1) as (project1 & results1 & Hm & Hshape1)
  end.
  { unfold try_catch, host, mbind, Eff_bind; simpl.
    destruct (addSourceFileAtPath env file) as [sourceFile|error]; simpl.
    - by eexists _, _.
    - eexists _, _. split; [done|]. by apply per_file_shaped_assign. }
  rewrite (completion_bind _ _ _ Hm). by apply IH.
Qed.

Lemma parse_files_returns env sourceFiles :
  ∀ results,
    per_file_shaped results →
    ∃ results',
      completion (V2.parse_files env sourceFiles results) = Normal results'
      ∧ per_file_shaped results'.
Proof.
  induction sourceFiles as [|sourceFile sourceFiles IH]; intros results Hshape;
    simpl.
  { by exists results. }
  match goal with
  | |- ∃ _, completion (?m ≫= _) = _ ∧ _ =>
      assert (∃ results1,
                completion m = Normal results1 ∧ per_file_shaped results1)
        as (results1 & Hm & Hshape1)
  end.
  { unfold try_catch, mbind, Eff_bind.
    destruct (completion (V2.createNodeFromSourceFile env sourceFile));
      simpl; eexists; (split; [done|]); by apply per_file_shaped_assign. }
  rewrite (completion_bind _ _ _ Hm). by apply IH.
Qed.

(** The second copy, on a path that fails validation. *)
Lemma parseDirectory_v2_invalid env dirPath extensions :
  not_a_directory env dirPath →
  V2.parseDirectory env dirPath extensions
    = MkEff (if existsSync env dirPath
             then [ExistsSync dirPath; StatSync dirPath]
             else [ExistsSync dirPath])
        (Normal {[ "error" := StringValue ("Directory not found: " +:+ dirPath) ]}).
Proof.
  intros Hinvalid.
  unfold V2.parseDirectory, try_catch, host, mbind, Eff_bind, mret, Eff_ret;
    simpl.
  destruct (existsSync env dirPath) eqn:Hexists; simpl; [|done].
  destruct Hinvalid as [?|(stats & Hstats & Hdir)]; [congruence|].
  rewrite Hstats; simpl. by rewrite Hdir.
Qed.

(** The second copy, on a directory: every value is a file result. *)
Lemma parseDirectory_v2_valid env dirPath extensions :
  is_a_directory env dirPath →
  ∃ results,
    completion (V2.parseDirectory env dirPath extensions) = Normal results
    ∧ per_file_shaped results.
Proof.
  intros (Hexists & stats & Hstats & Hdir).
  destruct (traverse_v2_returns env extensions (readdir env dirPath) dirPath [])
    as [files Hfiles].
  destruct (add_files_returns env files [] ∅ per_file_shaped_empty)
    as (project & results1 & Hadd & Hshape1).
  destruct (parse_files_returns env project results1 Hshape1)
    as (results & Hparse & Hshape).
  exists results. split; [|done].
  unfold V2.parseDirectory.
  match goal with
  | |- completion (try_catch ?m _) = _ =>
      assert (completion m = Normal results) as Hm
  end.
  { match goal with
    | |- completion (?validation ≫= _) = _ =>
        assert (completion validation = Normal false) as Hvalidation
    end.
    { rewrite completion_host_bind, Hexists. simpl.
      unfold host, mbind, Eff_bind; simpl. rewrite Hstats. simpl.
      by rewrite Hdir. }
    rewrite (completion_bind _ _ _ Hvalidation).
    unfold V2.findFilesRecursively.
    rewrite (completion_bind _ _ _ Hfiles).
    rewrite (completion_bind _ _ _ Hadd).
    by rewrite (completion_bind _ _ _ Hparse). }
  by rewrite (try_catch_normal _ _ _ Hm).
Qed.

(** The first copy, when [readdir] of the path fails. *)
Lemma parseDirectory_v1_unreadable env dirPath extensions error :
  readdir env dirPath = ReaddirError error →
  V1.parseDirectory env dirPath extensions
    = MkEff [Readdir dirPath]
        (Normal {[ dirPath :=
                     FileValue (ErrorEnvelope
                       ("Failed to parse directory " +:+ dirPath +:+ ": "
                        +:+ error_message error)) ]}).
Proof.
  intros Hreaddir.
  unfold V1.parseDirectory, V1.findFilesRecursively. rewrite Hreaddir. done.
Qed.

(** C3, as stated, fails for the first copy: for the path [missing], which
    does not exist, it attempts the enumeration, and what it returns is not a
    top-level error envelope but a mapping with one entry of the per-file
    shape, an error envelope under the directory path. *)
Lemma parseDirectory_v1_missing_directory :
  not_a_directory Sample.host "missing"
  ∧ ∃ results,
      V1.parseDirectory Sample.host "missing" [".ts"; ".tsx"]
        = MkEff [Readdir "missing"] (Normal results)
      ∧ results !! "missing"
          = Some (FileValue (ErrorEnvelope
              "Failed to parse directory missing: ENOENT: no such file or directory, scandir 'missing'"))
      ∧ per_file_shaped results
      ∧ ¬ top_level_envelope results.
Proof.
  split; [by left|]. eexists. split_and!.
  - by apply (parseDirectory_v1_unreadable _ _ _
                (Sample.enoent "scandir" "missing")).
  - apply lookup_singleton_eq.
  - apply per_file_shaped_insert, per_file_shaped_empty.
  - intros Htop. apply top_level_envelope_not_per_file in Htop. apply Htop.
    apply per_file_shaped_insert, per_file_shaped_empty.
Qed.

(** C3, amended: for a path that does not exist or is not a directory, the
    second copy of [parseDirectory] returns the single top-level envelope
    [{error: "Directory not found: <path>"}] after the validating calls
    alone, and no run of it on a directory returns an object of that shape:
    there every value is a file result.  The first copy does not validate:
    when [readdir] of the path fails it returns, after that one call, a
    mapping whose single entry is an ordinary error envelope under the
    directory path. *)
Theorem directory_level_failure env dirPath extensions :
  not_a_directory env dirPath →
  (∃ events,
     V2.parseDirectory env dirPath extensions
       = MkEff events
           (Normal {[ "error" :=
                        StringValue ("Directory not found: " +:+ dirPath) ]})
     ∧ ∀ event, event ∈ events →
                event = ExistsSync dirPath ∨ event = StatSync dirPath)
  ∧ (∀ directory,
       is_a_directory env directory →
       ∃ results,
         completion (V2.parseDirectory env directory extensions) = Normal results
         ∧ per_file_shaped results ∧ ¬ top_level_envelope results)
  ∧ (∀ error,
       readdir env dirPath = ReaddirError error →
       V1.parseDirectory env dirPath extensions
         = MkEff [Readdir dirPath]
             (Normal {[ dirPath :=
                          FileValue (ErrorEnvelope
                            ("Failed to parse directory " +:+ dirPath +:+ ": "
                             +:+ error_message error)) ]})).
Proof.
  intros Hinvalid. split_and!.
  - eexists. split; [by apply parseDirectory_v2_invalid|].
    intros event. destruct (existsSync env dirPath); set_solver.
  - intros directory Hvalid.
    destruct (parseDirectory_v2_valid env directory extensions Hvalid)
      as (results & Hresults & Hshape).
    exists results. split_and!; [done..|].
    intros Htop. by apply top_level_envelope_not_per_file in Htop.
  - intros error. apply parseDirectory_v1_unreadable.
Qed.

Lemma directory_level_failure_witness :
  not_a_directory Sample.host "repo/a.ts"
  ∧ V2.parseDirectory Sample.host "repo/a.ts" [".ts"; ".tsx"]
    = MkEff [ExistsSync "repo/a.ts"; StatSync "repo/a.ts"]
        (Normal {[ "error" := StringValue "Directory not found: repo/a.ts" ]}).
Proof.
  assert (not_a_directory Sample.host "repo/a.ts") as Hinvalid.
  { right. eexists. split; reflexivity. }
  split; [exact Hinvalid|].
  destruct (directory_level_failure Sample.host "repo/a.ts" [".ts"; ".tsx"]
              Hinvalid) as ((events & Hrun & _) & _ & _).
  rewrite Hrun. f_equal.
  rewrite parseDirectory_v2_invalid in Hrun by exact Hinvalid.
  by injection Hrun as <-.
Defined.

(** ** The two copies of the single-file pipeline *)

Section GuardNames.

Variables isNameable isNameableNode : Node → bool.
Variables isJSDocable isJSDocableNode : Node → bool.
Variable basename : string → string.

Hypothesis nameable_agree : ∀ node, isNameable node = isNameableNode node.
Hypothesis jsDocable_agree : ∀ node, isJSDocable node = isJSDocableNode node.




End GuardNames.

(** *** The walk of the second copy *)

Section SecondCopy.

Variable env : Env.

Lemma processNode_v2_unfold node parentASTNode :
  V2.processNode env node parentASTNode =
    if shouldSkipNode node then mret parentASTNode
    else
      astNode ← V2.addNodeSpecificDetails env node (initial node);
      astNode ← V2.processAll env (getChildren node) astNode;
      mret (push_child astNode parentASTNode).
Proof.
  destruct node as [? ? ? ? cs ? ? ? ? ? ? ? ? ? ? ? ? ?]; simpl.
  destruct (shouldSkipNode _); [done|].
  apply bind_ext. intros astNode. by f_equal.
Qed.

Lemma processAll_v2_cons node nodes astNode :
  V2.processAll env (node :: nodes) astNode
    = V2.processNode env node astNode ≫= V2.processAll env nodes.
Proof. done. Qed.

(** With both names exported, the walk is the walk of the shared
    normalizer under the exported guards: it makes no host call and does not
    throw. *)
Section Exported.

Variables nameable jsDocable : Node → bool.
Hypothesis nameable_exported : isNameableNode env = Exported nameable.
Hypothesis jsDocable_exported : isJSDocableNode env = Exported jsDocable.




End Exported.

(** With a name missing, the walk throws at the first node it keeps. *)
Section Missing.

Variable error : Thrown.
Hypothesis missing : missing_guard env = Some error.

Lemma addNodeSpecificDetails_v2_missing node astNode :
  V2.addNodeSpecificDetails env node astNode = throw error.
Proof.
  unfold V2.addNodeSpecificDetails, V2.getNodeName, V2.getNodeDocComment.
  unfold missing_guard in missing.
  destruct (isNameableNode env) as [nameable|error1];
    [|by injection missing as ->].
  destruct (isJSDocableNode env) as [jsDocable|error2]; [done|].
  injection missing as ->. unfold call_guard. rewrite bind_ret_l.
  destruct (nameable node); [|destruct (isIdentifier node)];
    by rewrite bind_ret_l.
Qed.

Lemma processNode_v2_missing node parentASTNode :
  V2.processNode env node parentASTNode =
    if shouldSkipNode node then mret parentASTNode else throw error.
Proof.
  rewrite processNode_v2_unfold. destruct (shouldSkipNode node); [done|].
  by rewrite addNodeSpecificDetails_v2_missing.
Qed.

Lemma processAll_v2_missing nodes astNode :
  V2.processAll env nodes astNode =
    match kept nodes with
    | [] => mret astNode
    | _ => throw error
    end.
Proof.
  induction nodes as [|node nodes IH]; [done|].
  rewrite processAll_v2_cons, processNode_v2_missing.
  unfold kept. rewrite filter_cons.
  destruct (shouldSkipNode node) eqn:Hskip.
  - rewrite decide_False by done. by rewrite bind_ret_l.
  - by rewrite decide_True by done.
Qed.

Lemma createNodeFromSourceFile_v2_missing sourceFile :
  V2.createNodeFromSourceFile env sourceFile =
    match kept (getStatements sourceFile) with
    | [] => mret (V1.createNodeFromSourceFile env sourceFile)
    | _ => throw error
    end.
Proof.
  unfold V2.createNodeFromSourceFile. rewrite processAll_v2_missing.
  destruct (kept (getStatements sourceFile)) eqn:Hkept; [|done].
  unfold V1.createNodeFromSourceFile.
  by rewrite createNodeFromSourceFile_spec, Hkept.
Qed.

End Missing.

(** How the second copy of [parseTypeScriptFile] ends, case by case. *)
Lemma parseTypeScriptFile_v2_completion filePath :
  completion (V2.parseTypeScriptFile env filePath) =
    Normal
      (if existsSync env filePath then
         match addSourceFileAtPath env filePath with
         | Normal sourceFile =>
             match completion (V2.createNodeFromSourceFile env sourceFile) with
             | Normal astRoot => Success astRoot
             | Throw error =>
                 ErrorEnvelope ("Failed to parse " +:+ filePath +:+ ": "
                                +:+ error_message error)
             end
         | Throw error =>
             ErrorEnvelope ("Failed to parse " +:+ filePath +:+ ": "
                            +:+ error_message error)
         end
       else ErrorEnvelope ("File not found: " +:+ filePath)).
Proof.
  unfold V2.parseTypeScriptFile, try_catch, host, mbind, Eff_bind, mret,
    Eff_ret; simpl.
  destruct (existsSync env filePath); simpl; [|done].
  destruct (addSourceFileAtPath env filePath) as [sourceFile|error];
    simpl; [|done].
  by destruct (completion (V2.createNodeFromSourceFile env sourceFile)).
Qed.

End SecondCopy.




(** * Further properties of the program *)

(** ** Attributes of the remaining declaration kinds *)

(** X1: for a class declaration, [extends] is present exactly when the class
    has an extends clause, and holds its text; [implements] is present
    exactly when the class implements at least one interface, and holds the
    texts of the implements clauses in their order; nothing else is set. *)
Theorem class_heritage_attributes node :
  getKind node = ClassDeclaration →
  getNodeAttributes node !! "extends" = AttrString <$> class_getExtends node
  ∧ getNodeAttributes node !! "implements"
    = (if getImplements node is [] then None
       else Some (AttrStrings (getImplements node)))
  ∧ dom (getNodeAttributes node) ⊆ {[ "extends"; "implements" ]}.
Proof.
  intros Hk. settle_guards Hk.
  destruct (class_getExtends node) as [extendsClause|];
    destruct (getImplements node) as [|clause clauses]; simpl;
    (split_and!; [by simplify_map_eq | by simplify_map_eq |]);
    rewrite ?dom_insert_L, ?dom_empty_L; set_solver.
Qed.

Lemma class_heritage_attributes_witness :
  getKind Sample2.documented_class = ClassDeclaration
  ∧ getNodeAttributes Sample2.documented_class !! "extends"
    = Some (AttrString "Base")
  ∧ getNodeAttributes Sample2.documented_class !! "implements"
    = Some (AttrStrings ["Named"; "Sized"]).
Proof.
  split; [reflexivity|].
  destruct (class_heritage_attributes Sample2.documented_class eq_refl)
    as (Hextends & Himplements & _).
  split; [exact Hextends | exact Himplements].
Defined.

Lemma paramInfo_lookup param key :
  paramInfo param !! key =
    if bool_decide (key = "name") then Some (param_getName param)
    else if bool_decide (key = "type") then param_getTypeNode param
    else if bool_decide (key = "default") then param_getInitializer param
    else None.
Proof.
  unfold paramInfo.
  destruct (param_getTypeNode param), (param_getInitializer param);
    repeat case_bool_decide; by simplify_map_eq.
Qed.

(** X2: for a function, method or constructor declaration, [parameters] is
    present exactly when there is at least one parameter; it then holds one
    record per parameter, in declaration order, each with the parameter's
    [name], with [type] exactly when the parameter has a type annotation and
    [default] exactly when it has an initializer, and with no other key. *)
Theorem parameters_attribute node :
  is_function_like node →
  (getParameters node = [] → getNodeAttributes node !! "parameters" = None)
  ∧ (getParameters node ≠ [] →
     ∃ records,
       getNodeAttributes node !! "parameters" = Some (AttrParameters records)
       ∧ length records = length (getParameters node)
       ∧ ∀ i param,
           getParameters node !! i = Some param →
           ∃ record,
             records !! i = Some record
             ∧ record !! "name" = Some (param_getName param)
             ∧ record !! "type" = param_getTypeNode param
             ∧ record !! "default" = param_getInitializer param
             ∧ dom record ⊆ {[ "name"; "type"; "default" ]}).
Proof.
  intros Hf.
  assert (getNodeAttributes node !! "parameters" =
            if getParameters node is [] then None
            else Some (AttrParameters (paramInfo <$> getParameters node)))
    as Hlookup.
  { apply is_function_like_cases in Hf as [Hk|[Hk|Hk]];
      settle_guards Hk;
      destruct (getParameters node) as [|param params];
      destruct (isVoid _); simpl; by simplify_map_eq. }
  rewrite Hlookup. split.
  - by intros ->.
  - intros Hne. destruct (getParameters node) as [|p ps] eqn:Hps; [done|].
    eexists. split; [done|]. split; [by rewrite length_fmap|].
    intros i param Hi. exists (paramInfo param).
    rewrite list_lookup_fmap, Hi. split_and!; [done|..].
    + by rewrite paramInfo_lookup.
    + by rewrite paramInfo_lookup.
    + by rewrite paramInfo_lookup.
    + intros key [value Hkey]%elem_of_dom. rewrite paramInfo_lookup in Hkey.
      repeat case_bool_decide; set_solver.
Qed.

Lemma parameters_attribute_witness :
  is_function_like Sample.annotated_function
  ∧ ∃ records,
      getNodeAttributes Sample.annotated_function !! "parameters"
        = Some (AttrParameters records)
      ∧ length records = 1%nat.
Proof.
  assert (is_function_like Sample.annotated_function) as Hf.
  { unfold is_function_like; simpl. set_solver. }
  split; [exact Hf|].
  destruct (parameters_attribute Sample.annotated_function Hf) as [_ Hsome].
  destruct Hsome as (records & Hlookup & Hlength & _); [discriminate|].
  exists records. split; [exact Hlookup | exact Hlength].
Defined.

(** X3: for a property declaration, [visibility] is the first of [private],
    [protected], [public] that the declaration has as a modifier, and is
    absent when it has none of them; [static] and [readonly] are present,
    with value [true], exactly when the property is static, respectively
    read-only, and never with value [false]; [type] is the text of the type
    annotation, when there is one. *)
Theorem property_attributes node :
  getKind node = PropertyDeclaration →
  getNodeAttributes node !! "visibility" = AttrString <$> visibility_of node
  ∧ getNodeAttributes node !! "static"
    = (if isStatic node then Some (AttrBool true) else None)
  ∧ getNodeAttributes node !! "readonly"
    = (if isReadonly node then Some (AttrBool true) else None)
  ∧ getNodeAttributes node !! "type" = AttrString <$> getTypeNode node.
Proof.
  intros Hk. settle_guards Hk. unfold visibility_of.
  destruct (getTypeNode node), (hasModifier node "private"),
    (hasModifier node "protected"), (hasModifier node "public"),
    (isStatic node), (isReadonly node); simpl;
    split_and!; by simplify_map_eq.
Qed.

Lemma property_attributes_witness :
  getKind Sample2.count_property = PropertyDeclaration
  ∧ getNodeAttributes Sample2.count_property !! "visibility"
    = Some (AttrString "private")
  ∧ getNodeAttributes Sample2.count_property !! "static"
    = Some (AttrBool true)
  ∧ getNodeAttributes Sample2.count_property !! "readonly"
    = Some (AttrBool true)
  ∧ getNodeAttributes Sample2.count_property !! "type"
    = Some (AttrString "number").
Proof.
  split; [reflexivity|].
  exact (property_attributes Sample2.count_property eq_refl).
Defined.



(** ** Names and documentation comments *)

Lemma string_app_cons a s1 s2 : String a s1 +:+ s2 = String a (s1 +:+ s2).
Proof. done. Qed.

Lemma rev_app_spec s1 s2 : String.rev_app s1 s2 = String.rev s1 +:+ s2.
Proof.
  revert s2. induction s1 as [|a s1 IH]; intros s2; [done|].
  unfold String.rev; simpl. rewrite (IH (String a s2)), (IH (String a "")).
  by rewrite string_app_assoc.
Qed.

Lemma string_rev_cons a s : String.rev (String a s) = String.rev s +:+ String a "".
Proof. unfold String.rev at 1; simpl. apply rev_app_spec. Qed.

Lemma string_rev_app s1 s2 :
  String.rev (s1 +:+ s2) = String.rev s2 +:+ String.rev s1.
Proof.
  induction s1 as [|a s1 IH].
  - by rewrite string_app_empty_r.
  - rewrite string_app_cons, !string_rev_cons, IH.
    by rewrite string_app_assoc.
Qed.

Lemma string_rev_involutive s : String.rev (String.rev s) = s.
Proof.
  induction s as [|a s IH]; [done|].
  by rewrite string_rev_cons, string_rev_app, IH.
Qed.

Lemma prefix_trans a b c :
  String.prefix a b = true → String.prefix b c = true →
  String.prefix a c = true.
Proof.
  revert b c. induction a as [|x a IH]; intros b c Hab Hbc; [by destruct c|].
  destruct b as [|y b]; [by simpl in Hab|].
  destruct c as [|z c]; [by simpl in Hbc|].
  simpl in *.
  destruct (ascii_dec x y) as [->|]; [|done].
  destruct (ascii_dec y z) as [->|]; [|done]. by eapply IH.
Qed.

Lemma prefix_app a b : String.prefix a (a +:+ b) = true.
Proof.
  induction a as [|x a IH]; [by destruct b|]. rewrite string_app_cons. simpl.
  by destruct (ascii_dec x x).
Qed.

Lemma prefix_empty s : String.prefix "" s = true.
Proof. by destruct s. Qed.

Lemma prefix_cons a w b s :
  String.prefix (String a w) (String b s) = true ↔
  a = b ∧ String.prefix w s = true.
Proof. simpl. destruct (ascii_dec a b); naive_solver. Qed.

Lemma existsb_false {A} (f : A → bool) l :
  (∀ x, x ∈ l → f x = false) → existsb f l = false.
Proof.
  intros Hall. apply not_true_iff_false. intros (x & Hin & Hx)%existsb_exists.
  apply list_elem_of_In in Hin. by rewrite (Hall x Hin) in Hx.
Qed.

(** What [strip] leaves begins with no member of [ws]. *)
Lemma strip_no_prefix ws s w :
  Forall (λ w, (1 ≤ String.length w ≤ 3)%nat) ws →
  w ∈ ws → String.prefix w (strip ws s) = false.
Proof.
  intros Hsizes Hw. pose proof Hw as Hsize.
  eapply Forall_forall in Hsize; [|exact Hsizes]. simpl in Hsize.
  functional induction (strip ws s); try done.
  - destruct w; [simpl in Hsize; lia | done].
  - apply bool_decide_eq_false in e0.
    apply not_true_iff_false. destruct w as [|x w]; [simpl in Hsize; lia|].
    intros [-> Hrest]%prefix_cons. by destruct w.
  - apply bool_decide_eq_false in e0, e2.
    apply not_true_iff_false. destruct w as [|x w]; [simpl in Hsize; lia|].
    intros [-> Hrest]%prefix_cons. destruct w as [|y w]; [done|].
    apply prefix_cons in Hrest as [-> Hrest]. by destruct w.
  - apply bool_decide_eq_false in e0, e2, e4.
    apply not_true_iff_false. destruct w as [|x w]; [simpl in Hsize; lia|].
    intros [-> Hrest]%prefix_cons. destruct w as [|y w]; [done|].
    apply prefix_cons in Hrest as [-> Hrest]. destruct w as [|z w]; [done|].
    apply prefix_cons in Hrest as [-> Hrest].
    destruct w; [done | simpl in Hsize; lia].
Qed.

(** [strip] removes a prefix. *)
Lemma strip_suffix ws s : ∃ stripped, s = stripped +:+ strip ws s.
Proof.
  functional induction (strip ws s);
    try destruct IHs0 as [stripped IH]; try by exists "".
  - exists (String a stripped). by rewrite string_app_cons, <-IH.
  - exists (String a (String b stripped)).
    by rewrite !string_app_cons, <-IH.
  - exists (String a (String b (String c stripped))).
    by rewrite !string_app_cons, <-IH.
Qed.

Lemma white_space_sizes :
  Forall (λ w, (1 ≤ String.length w ≤ 3)%nat) white_space.
Proof. repeat constructor. Qed.

Lemma white_space_rev_sizes :
  Forall (λ w, (1 ≤ String.length w ≤ 3)%nat) (String.rev <$> white_space).
Proof. repeat constructor. Qed.

(** No encoding begins another: [strip] takes a leading white space
    character off whole. *)
Lemma strip_white_space :
  Forall (λ w, ∀ s, strip white_space (w +:+ s) = strip white_space s)
         white_space.
Proof. repeat constructor. Qed.

Lemma trim_start_blank s : blank s → trim_start s = "".
Proof.
  unfold trim_start. induction 1 as [|w s Hw _ IH]; [done|].
  pose proof strip_white_space as Hstrip.
  rewrite Forall_forall in Hstrip. by rewrite Hstrip.
Qed.

Lemma made_of_app ws s1 s2 :
  made_of ws s1 → made_of ws s2 → made_of ws (s1 +:+ s2).
Proof.
  induction 1 as [|w s1 Hw _ IH]; intros Hs2; [done|].
  rewrite string_app_assoc. constructor; auto.
Qed.

Lemma made_of_singleton ws w : w ∈ ws → made_of ws w.
Proof.
  intros Hw. rewrite <-(string_app_empty_r w). by repeat constructor.
Qed.

Lemma blank_join l : Forall blank l → blank (join newline l).
Proof.
  unfold join. induction 1 as [|s l Hs Hl IH]; [constructor|]. simpl.
  destruct l as [|s' l]; [done|].
  change (blank (s +:+ newline +:+ String.concat newline (s' :: l))).
  apply made_of_app; [done|]. apply made_of_app; [|done].
  apply made_of_singleton. by apply (bool_decide_unpack _).
Qed.

(** [trim] leaves nothing of a string of white space. *)
Lemma trim_blank s : blank s → trim s = "".
Proof. intros Hs. unfold trim. by rewrite (trim_start_blank s). Qed.

(** [trim] leaves no white space at either end. *)
Lemma trim_trimmed s :
  starts_with_space (trim s) = false ∧ ends_with_space (trim s) = false.
Proof.
  unfold starts_with_space, ends_with_space, trim, trim_end.
  set (v := trim_start s).
  set (u := strip (String.rev <$> white_space) (String.rev v)).
  split; apply existsb_false; intros space Hspace.
  - destruct (strip_suffix (String.rev <$> white_space) (String.rev v))
      as [stripped Hsuffix].
    fold u in Hsuffix. apply (f_equal String.rev) in Hsuffix.
    rewrite string_rev_involutive, string_rev_app in Hsuffix.
    apply not_true_iff_false. intros Hprefix.
    assert (String.prefix space v = true) as Hv.
    { rewrite Hsuffix. eapply prefix_trans; [exact Hprefix | apply prefix_app]. }
    unfold v, trim_start in Hv.
    by rewrite (strip_no_prefix _ _ _ white_space_sizes Hspace) in Hv.
  - unfold endsWith. rewrite string_rev_involutive.
    apply (strip_no_prefix _ _ _ white_space_rev_sizes).
    by apply list_elem_of_fmap_2.
Qed.

Section Details.

Variable isNameable : Node → bool.
Variable isJSDocable : Node → bool.

Abbreviation details := (addNodeSpecificDetails isNameable isJSDocable).
Abbreviation norm := (normalize isNameable isJSDocable).
Abbreviation node_name := (getNodeName isNameable).
Abbreviation node_doc := (getNodeDocComment isJSDocable).

Lemma addNodeSpecificDetails_name node a :
  name (details node a) =
    match node_name node with
    | Some s => if truthy s then Some s else name a
    | None => name a
    end.
Proof.
  unfold addNodeSpecificDetails. repeat (case_match; simpl); done.
Qed.

Lemma addNodeSpecificDetails_docComment node a :
  docComment (details node a) =
    match node_doc node with
    | Some s => if truthy s then Some s else docComment a
    | None => docComment a
    end.
Proof.
  unfold addNodeSpecificDetails. repeat (case_match; simpl); done.
Qed.

Lemma addNodeSpecificDetails_text node a : text (details node a) = text a.
Proof.
  unfold addNodeSpecificDetails. repeat (case_match; simpl); done.
Qed.

Lemma normalize_name node :
  name (norm node) =
    match node_name node with
    | Some s => if truthy s then Some s else None
    | None => None
    end.
Proof.
  rewrite normalize_spec.
  case_match; simpl; by rewrite addNodeSpecificDetails_name.
Qed.

Lemma normalize_docComment node :
  docComment (norm node) =
    match node_doc node with
    | Some s => if truthy s then Some s else None
    | None => None
    end.
Proof.
  rewrite normalize_spec.
  case_match; simpl; by rewrite addNodeSpecificDetails_docComment.
Qed.

Lemma normalize_text node : text (norm node) = None.
Proof.
  rewrite normalize_spec.
  case_match; simpl; by rewrite addNodeSpecificDetails_text.
Qed.

Lemma truthy_true s : truthy s = true ↔ s ≠ "".
Proof.
  unfold truthy. rewrite negb_true_iff, bool_decide_eq_false. done.
Qed.

(** X5: a node is given a [name] in exactly two cases: it is nameable and
    its [getName()] is a non-empty string, which is then the name; or it is
    not nameable, it is an identifier and its text is non-empty, which is
    then the name.  A nameable node without a name stays unnamed even when it
    is an identifier, and the name is never the empty string. *)
Theorem naming_policy node s :
  name (normalize isNameable isJSDocable node) = Some s ↔
  s ≠ "" ∧ (isNameable node = true ∧ getName node = Some s
            ∨ isNameable node = false ∧ getKind node = Identifier
              ∧ getText node = s).
Proof.
  rewrite normalize_name. unfold getNodeName, isIdentifier, has_kind.
  destruct (isNameable node).
  - destruct (getName node) as [n|].
    + destruct (truthy n) eqn:Hn.
      * apply truthy_true in Hn. naive_solver.
      * assert (¬ n ≠ "") by (by rewrite <-truthy_true, Hn). naive_solver.
    + naive_solver.
  - case_bool_decide as Hid.
    + destruct (truthy (getText node)) eqn:Hn.
      * apply truthy_true in Hn. naive_solver.
      * assert (¬ getText node ≠ "") by (by rewrite <-truthy_true, Hn).
        naive_solver.
    + naive_solver.
Qed.

(** X6: a [docComment], when a node has one, is the newline-joined, trimmed
    text of the descriptions of its documentation blocks; it is not empty and
    neither begins nor ends with white space, and only a node that supports
    documentation and has at least one block gets one. *)
Theorem docComment_trimmed node comment :
  docComment (norm node) = Some comment →
  isJSDocable node = true
  ∧ getJsDocs node ≠ []
  ∧ comment = trim (join newline (omap getDescription (getJsDocs node)))
  ∧ comment ≠ ""
  ∧ starts_with_space comment = false
  ∧ ends_with_space comment = false.
Proof.
  rewrite normalize_docComment. unfold getNodeDocComment.
  destruct (isJSDocable node); [|done].
  case_bool_decide as Hdocs; [|done].
  destruct (truthy _) eqn:Htruthy; [|done]. intros [= <-].
  apply truthy_true in Htruthy.
  split_and!; [done | | done | done | apply trim_trimmed..].
  intros Hnil. rewrite Hnil in Hdocs. simpl in Hdocs. lia.
Qed.

(** X7: a node whose documentation blocks hold nothing but white space (or
    no description at all) gets no [docComment]. *)
Theorem blank_documentation_omitted node :
  Forall (λ doc, blank (default "" (getDescription doc))) (getJsDocs node) →
  docComment (norm node) = None.
Proof.
  intros Hblank.
  assert (Forall blank (omap getDescription (getJsDocs node)))
    as Hdescriptions.
  { induction Hblank as [|doc docs Hdoc _ IH]; [constructor|]. simpl.
    destruct (getDescription doc); simpl in *; [by constructor | done]. }
  rewrite normalize_docComment. unfold getNodeDocComment.
  destruct (isJSDocable node); [|done].
  case_bool_decide; [|done].
  by rewrite trim_blank by by apply blank_join.
Qed.

End Details.

Lemma naming_policy_witness :
  name (normalize Sample.nameable Sample.jsDocable Sample2.documented_class)
    = Some "Foo".
Proof.
  apply (naming_policy Sample.nameable Sample.jsDocable
           Sample2.documented_class "Foo").
  split; [discriminate | left; split; reflexivity].
Defined.

Lemma docComment_trimmed_witness :
  docComment (normalize Sample.nameable Sample.jsDocable Sample2.documented_class)
    = Some "Foo entity"
  ∧ starts_with_space "Foo entity" = false
  ∧ ends_with_space "Foo entity" = false.
Proof.
  assert (docComment (normalize Sample.nameable Sample.jsDocable
                        Sample2.documented_class) = Some "Foo entity") as Hdoc.
  { vm_compute. reflexivity. }
  split; [exact Hdoc|].
  destruct (docComment_trimmed Sample.nameable Sample.jsDocable
              Sample2.documented_class "Foo entity" Hdoc)
    as (_ & _ & _ & _ & Hstart & Hend).
  split; [exact Hstart | exact Hend].
Defined.

Lemma blank_documentation_omitted_witness :
  Forall (λ doc, blank (default "" (getDescription doc)))
         (getJsDocs Sample2.blank_documented_class)
  ∧ docComment (normalize Sample.nameable Sample.jsDocable
                  Sample2.blank_documented_class) = None.
Proof.
  assert (" " ∈ white_space) as Hspace by (by apply (bool_decide_unpack _)).
  assert (bytes [227; 128; 128]%nat ∈ white_space) as Hwide
    by (by apply (bool_decide_unpack _)).
  assert (Forall (λ doc, blank (default "" (getDescription doc)))
                 (getJsDocs Sample2.blank_documented_class)) as Hblank.
  { repeat constructor; simpl.
    - apply (made_of_cons _ " " " "); [done|]. by apply made_of_singleton.
    - by apply made_of_singleton. }
  split; [exact Hblank|].
  exact (blank_documentation_omitted Sample.nameable Sample.jsDocable
           Sample2.blank_documented_class Hblank).
Defined.

(** ** The shape of the output tree *)

Section TreeShape.

Variable isNameable : Node → bool.
Variable isJSDocable : Node → bool.
Variable basename : string → string.

Abbreviation norm := (normalize isNameable isJSDocable).
Abbreviation root := (createNodeFromSourceFile isNameable isJSDocable basename).

Lemma normalize_children_kept node child :
  child ∈ getChildren node → shouldSkipNode child = false →
  child_of (norm child) (norm node).
Proof.
  intros Hin Hkept.
  assert (norm child ∈ norm <$> kept (getChildren node)) as Hchild.
  { apply list_elem_of_fmap. exists child. split; [done|].
    by apply elem_of_kept. }
  unfold child_of. rewrite normalize_children.
  destruct (norm <$> kept (getChildren node)) as [|c cs] eqn:Hl.
  - by apply elem_of_nil in Hchild.
  - by eexists.
Qed.

Lemma subnode_visible node d :
  subnode d (norm node) ↔ ∃ node', visible node' node ∧ d = norm node'.
Proof.
  split.
  - revert d. induction node as [node IH] using Node_ind. intros d Hd.
    inversion Hd as [|n cs c Hcs Hc Hsub]; subst.
    { exists node. split; [constructor | done]. }
    destruct (child_of_normalize isNameable isJSDocable node c)
      as (child & Hin & Hkept & ->); [by exists cs|].
    rewrite Forall_forall in IH.
    destruct (IH child Hin d Hsub) as (node' & Hvisible & ->).
    exists node'. split; [|done]. by eapply visible_below.
  - intros (node' & Hvisible & ->).
    induction Hvisible as [|node child Hin Hkept _ IH]; [constructor|].
    destruct (normalize_children_kept node child Hin Hkept) as (cs & Hcs & Hc).
    by eapply subnode_below.
Qed.

(** X8: the nodes of the output tree below the root are exactly the
    normalizations of the syntax nodes reached from a kept statement through
    kept children: no kept node reached through kept nodes is lost, at any
    depth, and nothing else is in the tree. *)
Theorem output_nodes_are_the_visible_nodes sourceFile d :
  below d (root sourceFile) ↔
  ∃ statement node,
    statement ∈ getStatements sourceFile
    ∧ shouldSkipNode statement = false
    ∧ visible node statement
    ∧ d = norm node.
Proof.
  split.
  - intros (c & Hc & Hsub).
    apply child_of_root in Hc as (statement & Hin & Hkept & ->).
    apply subnode_visible in Hsub as (node & Hvisible & ->).
    by exists statement, node.
  - intros (statement & node & Hin & Hkept & Hvisible & ->).
    exists (norm statement). split.
    + unfold child_of. rewrite createNodeFromSourceFile_spec. simpl.
      eexists. split; [done|]. apply list_elem_of_fmap.
      exists statement. split; [done|]. by apply elem_of_kept.
    + apply subnode_visible. by exists node.
Qed.

(** X9: children keep the order of the source.  The [children] of the root
    are the normalizations of the kept statements, in the order of the
    statements; the [children] of every node below it are the normalizations
    of the kept children of the syntax node it was made from, in their
    order. *)
Theorem children_in_source_order sourceFile :
  children (root sourceFile) = Some (norm <$> kept (getStatements sourceFile))
  ∧ ∀ d, below d (root sourceFile) →
         ∃ node, d = norm node
                 ∧ default [] (children d) = norm <$> kept (getChildren node)
                 ∧ nodeType <$> default [] (children d)
                   = getKindName <$> kept (getChildren node).
Proof.
  split; [by rewrite createNodeFromSourceFile_spec|].
  intros d (statement & node & _ & _ & ->)%below_root.
  exists node. split; [done|].
  assert (default [] (children (norm node)) = norm <$> kept (getChildren node))
    as Hchildren.
  { rewrite normalize_children. by case_match. }
  split; [done|]. rewrite Hchildren, <-list_fmap_compose.
  apply list_fmap_ext. intros i child _. apply normalize_nodeType.
Qed.

(** X10: the [text] field is never populated, anywhere in the output tree,
    while [startLine] and [endLine] are always present. *)
Theorem text_never_set_spans_always_set sourceFile d :
  subnode d (root sourceFile) →
  text d = None ∧ is_Some (startLine d) ∧ is_Some (endLine d).
Proof.
  intros [->|(statement & node & _ & _ & ->)]%subnode_root.
  - rewrite createNodeFromSourceFile_spec. simpl. by split_and!.
  - rewrite normalize_text, normalize_startLine, normalize_endLine.
    by split_and!.
Qed.

(** X11: below the root, [name] and [docComment] are omitted rather than
    empty: no node carries the empty string in either field. *)
Theorem name_and_docComment_never_empty sourceFile d :
  below d (root sourceFile) → name d ≠ Some "" ∧ docComment d ≠ Some "".
Proof.
  intros (statement & node & _ & _ & ->)%below_root.
  rewrite normalize_name, normalize_docComment. split.
  - destruct (getNodeName isNameable node) as [s|]; [|done].
    destruct (truthy s) eqn:Hs; [|done]. apply truthy_true in Hs. congruence.
  - destruct (getNodeDocComment isJSDocable node) as [s|]; [|done].
    destruct (truthy s) eqn:Hs; [|done]. apply truthy_true in Hs. congruence.
Qed.

(** X12: [processNode] pushes the new node into its parent before it fills
    the node's children; as the parent's array holds the node itself and not
    a copy, the store [createNodeFromSourceFile] leaves holds, from the file
    node on, exactly one tree: the tree [createNodeFromSourceFile] of the
    model returns, with every subtree complete. *)
Theorem store_holds_the_tree sourceFile tree :
  Store.represents
    (Store.createNodeFromSourceFile isNameable isJSDocable basename sourceFile)
    0%nat tree
  ↔ tree = root sourceFile.
Proof.
  split.
  - intros Htree. symmetry. eapply represents_functional; [|exact Htree].
    apply createNodeFromSourceFile_represents.
  - intros ->. apply createNodeFromSourceFile_represents.
Qed.

End TreeShape.

Lemma output_nodes_are_the_visible_nodes_witness :
  (* the argument [x] of the call [f(x, y);] is in the output *)
  below (normalize Sample.nameable Sample.jsDocable (leaf Identifier 1 1 "x"))
        (createNodeFromSourceFile Sample.nameable Sample.jsDocable
           Sample.basename Sample2.call_file).
Proof.
  apply (output_nodes_are_the_visible_nodes Sample.nameable Sample.jsDocable
           Sample.basename Sample2.call_file).
  exists Sample2.call_statement, (leaf Identifier 1 1 "x"). split_and!.
  - unfold Sample2.call_file; simpl. pick.
  - reflexivity.
  - apply (visible_below _ Sample2.call_statement Sample2.call);
      [unfold Sample2.call_statement; simpl; pick | reflexivity |].
    apply (visible_below _ Sample2.call Sample2.arguments);
      [unfold Sample2.call; simpl; pick | reflexivity |].
    apply (visible_below _ Sample2.arguments (leaf Identifier 1 1 "x"));
      [unfold Sample2.arguments; simpl; pick | reflexivity |].
    apply visible_here.
  - reflexivity.
Defined.

Lemma text_never_set_spans_always_set_witness :
  text Sample.class_ast = None
  ∧ is_Some (startLine Sample.class_ast) ∧ is_Some (endLine Sample.class_ast).
Proof.
  apply (text_never_set_spans_always_set Sample.never Sample.never
           Sample.basename Sample.sourceFile).
  eapply subnode_below; [vm_compute; reflexivity | | apply subnode_here].
  vm_compute. pick.
Defined.

Lemma name_and_docComment_never_empty_witness :
  name Sample.class_ast ≠ Some "" ∧ docComment Sample.class_ast ≠ Some "".
Proof.
  apply (name_and_docComment_never_empty Sample.never Sample.never
           Sample.basename Sample.sourceFile).
  exists Sample.class_ast. split; [|apply subnode_here].
  eexists. split; [vm_compute; reflexivity|]. vm_compute. pick.
Defined.

(** ** Enumerating the files of a directory *)


Lemma trace_bind {A B} (m : Eff A) (f : A → Eff B) a :
  completion m = Normal a → trace (m ≫= f) = trace m ++ trace (f a).
Proof. intros Hm. by rewrite (bind_normal _ _ _ Hm). Qed.

Lemma traverse_v2_unfold env extensions currentPath listing files :
  V2.traverse env extensions currentPath listing files =
    try_catch
      match listing with
      | ReaddirError error => host (Readdir currentPath) (Throw error)
      | Entries entries =>
          host (Readdir currentPath) (Normal ());;
          traverse_entries_v2 env extensions currentPath entries files
      end
      (λ error,
         console_error ("Error reading directory " +:+ currentPath +:+ ": "
                        +:+ String_of error);;
         mret files).
Proof.
  destruct listing as [entries|error]; [|done]. simpl.
  match goal with
  | |- try_catch (Eff_bind _ _ (λ _, ?loop entries files) _) _ = _ =>
      assert (∀ entries files,
                loop entries files
                = traverse_entries_v2 env extensions currentPath entries files)
        as Hloop
  end.
  { clear. induction entries as [|entry entries IH]; intros files; [done|].
    simpl. unfold mbind, Eff_bind.
    match goal with
    | |- context [completion ?m] => destruct (completion m); [|done]
    end.
    by rewrite IH. }
  by rewrite Hloop.
Qed.








Section Enumeration.

Variable env : Env.
Variable extensions : list string.

(** [path.join(directory, name)] ends with [name]. *)
Hypothesis join_ends_with_name :
  ∀ directory name, endsWith (path_join env directory name) name = true.



End Enumeration.


(** ** Directories that cannot be read *)

Lemma completion_bind_congr {A B} (m1 m2 : Eff A) (f g : A → Eff B) :
  completion m1 = completion m2 →
  (∀ a, completion (f a) = completion (g a)) →
  completion (m1 ≫= f) = completion (m2 ≫= g).
Proof.
  intros Hm Hfg. unfold mbind, Eff_bind. rewrite Hm.
  destruct (completion m2); simpl; [apply Hfg | done].
Qed.

Lemma completion_try_catch_congr {A} (m1 m2 : Eff A) handler :
  completion m1 = completion m2 →
  completion (try_catch m1 handler) = completion (try_catch m2 handler).
Proof.
  intros Hm. unfold try_catch. rewrite Hm.
  by destruct (completion m2) eqn:Hm2; simpl; rewrite ?Hm, ?Hm2.
Qed.

Lemma traverse_entries_v2_cons env extensions currentPath entry entries files :
  traverse_entries_v2 env extensions currentPath (entry :: entries) files =
    (match entry with
     | DirentDirectory name contents =>
         if bool_decide (name ≠ "node_modules")
            && bool_decide (name ≠ ".git")
            && bool_decide (name ≠ "dist")
            && bool_decide (name ≠ ".venv") then
           V2.traverse env extensions
             (path_join env currentPath (dirent_name entry)) contents files
         else mret files
     | DirentFile name =>
         if bool_decide (path_extname env name ∈ extensions)
         then mret (files ++ [path_join env currentPath (dirent_name entry)])
         else mret files
     | DirentOther _ => mret files
     end) ≫= traverse_entries_v2 env extensions currentPath entries.
Proof. done. Qed.

Lemma traverse_entries_v2_app env extensions currentPath entries1 entries2 :
  ∀ files,
    traverse_entries_v2 env extensions currentPath (entries1 ++ entries2) files
    = traverse_entries_v2 env extensions currentPath entries1 files
      ≫= traverse_entries_v2 env extensions currentPath entries2.
Proof.
  induction entries1 as [|entry entries1 IH]; intros files.
  { symmetry. apply bind_ret_l. }
  rewrite <-app_comm_cons, !traverse_entries_v2_cons, bind_assoc.
  by apply bind_ext.
Qed.

Lemma traverse_entries_app env extensions currentPath entries1 entries2 :
  ∀ files,
    traverse_entries env extensions currentPath (entries1 ++ entries2) files
    = traverse_entries env extensions currentPath entries1 files
      ≫= traverse_entries env extensions currentPath entries2.
Proof.
  induction entries1 as [|entry entries1 IH]; intros files.
  { symmetry. apply bind_ret_l. }
  rewrite <-app_comm_cons, !traverse_entries_cons, bind_assoc.
  by apply bind_ext.
Qed.

(** X15: the second copy's enumeration never throws.  A directory that
    cannot be read is reported with [console.error] and contributes no file;
    the enumeration goes on with its siblings, so that the files returned are
    those that would be returned were the directory not there.  When the
    directory given cannot be read itself, the result is the empty list. *)
Theorem unreadable_directory_is_skipped env extensions :
  (∀ dirPath,
     ∃ files,
       completion (V2.findFilesRecursively env dirPath extensions)
         = Normal files)
  ∧ (∀ dirPath error,
       readdir env dirPath = ReaddirError error →
       V2.findFilesRecursively env dirPath extensions
         = MkEff [Readdir dirPath;
                  ConsoleError ("Error reading directory " +:+ dirPath +:+ ": "
                                +:+ String_of error)]
             (Normal []))
  ∧ (∀ currentPath before name error after files,
       completion
         (V2.traverse env extensions currentPath
            (Entries (before ++ DirentDirectory name (ReaddirError error)
                             :: after)) files)
       = completion
           (V2.traverse env extensions currentPath
              (Entries (before ++ after)) files)).
Proof.
  split_and!.
  - intros dirPath. apply traverse_v2_returns.
  - intros dirPath error Hreaddir.
    unfold V2.findFilesRecursively. by rewrite Hreaddir.
  - intros currentPath before name error after files.
    rewrite !traverse_v2_unfold. apply completion_try_catch_congr.
    rewrite !host_then; simpl.
    rewrite !traverse_entries_v2_app.
    apply completion_bind_congr; [done|]. intros files1.
    rewrite traverse_entries_v2_cons.
    destruct (_ && _); [|by rewrite bind_ret_l].
    by rewrite traverse_v2_unfold.
Qed.

Lemma unreadable_directory_is_skipped_witness :
  completion (V2.findFilesRecursively Sample2.locked_host "locked"
                [".ts"; ".tsx"])
    = Normal ["locked/a.ts"; "locked/z.ts"]
  ∧ V2.findFilesRecursively Sample2.locked_host "missing" [".ts"; ".tsx"]
    = MkEff [Readdir "missing";
             ConsoleError "Error reading directory missing: Error: ENOENT: no such file or directory, scandir 'missing'"]
        (Normal []).
Proof.
  destruct (unreadable_directory_is_skipped Sample2.locked_host [".ts"; ".tsx"])
    as (_ & Hroot & Hskip).
  split.
  - unfold V2.findFilesRecursively.
    change (readdir Sample2.locked_host "locked") with
      (Entries ([DirentFile "a.ts"]
                ++ DirentDirectory "private"
                     (ReaddirError (ErrorObject "Error" "EACCES: permission denied, scandir 'locked/private'"))
                   :: [DirentFile "z.ts"])).
    rewrite Hskip. vm_compute. reflexivity.
  - rewrite (Hroot "missing" (Sample.enoent "scandir" "missing") eq_refl).
    vm_compute. reflexivity.
Defined.

(** ** The host calls of the directory pipeline *)

Lemma trace_bind_Forall {A B} (P : Event → Prop) (m : Eff A) (f : A → Eff B) :
  Forall P (trace m) → (∀ a, Forall P (trace (f a))) →
  Forall P (trace (m ≫= f)).
Proof.
  intros Hm Hf. unfold mbind, Eff_bind.
  destruct (completion m); simpl; [|done]. apply Forall_app. auto.
Qed.

(** The first copy's [traverse] calls nothing but [readdir]. *)
Lemma traverse_only_readdir env extensions listing :
  ∀ currentPath files,
    Forall (λ event, ∃ path, event = Readdir path)
           (trace (V1.traverse env extensions currentPath listing files)).
Proof.
  induction listing as [error|entries IH] using Listing_ind;
    intros currentPath files.
  { repeat constructor. by eexists. }
  rewrite traverse_unfold, host_then; simpl. constructor; [by eexists|].
  revert files. induction entries as [|entry entries IHentries]; intros files;
    [constructor|].
  apply Forall_cons in IH as [Hentry IH]. specialize (IHentries IH).
  rewrite traverse_entries_cons. apply trace_bind_Forall; [|done].
  destruct entry as [name|name contents|name]; simpl.
  - destruct (existsb _ _); constructor.
  - case_bool_decide; [constructor | apply Hentry].
  - constructor.
Qed.

Lemma parseTypeScriptFile_trace env file :
  trace (V1.parseTypeScriptFile env file) = file_trace env file.
Proof.
  rewrite parseTypeScriptFile_cases. unfold file_trace.
  by destruct (access env file).
Qed.

Lemma process_chunk_trace env chunk :
  ∀ results,
    trace (V1.process_chunk env chunk results)
      = flat_map (file_trace env) chunk.
Proof.
  induction chunk as [|file chunk IH]; intros results; [done|]. simpl.
  rewrite (trace_bind _ _ _ (parseTypeScriptFile_completion _ _)).
  by rewrite parseTypeScriptFile_trace, IH.
Qed.

Lemma chunk_loop_trace env fuel files :
  ∀ i results,
    (length files ≤ i + fuel * V1.CONCURRENCY_LIMIT)%nat →
    trace (V1.chunk_loop env fuel files i results)
      = flat_map (file_trace env) (drop i files).
Proof.
  induction fuel as [|fuel IH]; intros i results Hfuel; simpl.
  { by rewrite drop_ge by lia. }
  case_bool_decide as Hi.
  - rewrite (trace_bind _ _ _ (process_chunk_completion _ _ _)).
    rewrite process_chunk_trace.
    rewrite IH by (unfold V1.CONCURRENCY_LIMIT in *; lia).
    rewrite <-flat_map_app. f_equal. unfold slice.
    replace (i + V1.CONCURRENCY_LIMIT - i)%nat with V1.CONCURRENCY_LIMIT by lia.
    rewrite <-drop_drop. apply take_drop.
  - by rewrite drop_ge by lia.
Qed.

Lemma parseDirectory_trace env dirPath extensions events files :
  V1.findFilesRecursively env dirPath extensions = MkEff events (Normal files) →
  trace (V1.parseDirectory env dirPath extensions)
    = events ++ flat_map (file_trace env) files.
Proof.
  intros Hrun. unfold V1.parseDirectory.
  assert (completion (V1.chunk_loop env (length files) files 0 ∅)
          = Normal (record_all env files ∅)) as Hloop.
  { rewrite chunk_loop_completion by (unfold V1.CONCURRENCY_LIMIT; lia).
    by rewrite drop_0. }
  assert (trace (V1.chunk_loop env (length files) files 0 ∅)
          = flat_map (file_trace env) files) as Htrace.
  { rewrite chunk_loop_trace by (unfold V1.CONCURRENCY_LIMIT; lia).
    by rewrite drop_0. }
  rewrite Hrun.
  match goal with
  | |- trace (try_catch ?m _) = _ =>
      assert (m = MkEff (events ++ flat_map (file_trace env) files)
                        (Normal (record_all env files ∅))) as ->
  end.
  { unfold mbind at 1, Eff_bind at 1; simpl.
    rewrite (bind_normal _ _ _ Hloop), Htrace. simpl.
    by rewrite app_nil_r. }
  done.
Qed.

Lemma elem_of_flat_map {A B} (f : A → list B) l y :
  y ∈ flat_map f l ↔ ∃ x, x ∈ l ∧ y ∈ f x.
Proof.
  rewrite list_elem_of_In, in_flat_map.
  by setoid_rewrite list_elem_of_In.
Qed.

Lemma elem_of_file_trace env file event :
  event ∈ file_trace env file ↔
  event = Access file
  ∨ (event = AddSourceFileAtPath file ∧ access env file = None).
Proof.
  unfold file_trace. destruct (access env file) as [error|]; set_solver.
Qed.

(** X16: the host calls of [parseDirectory].  The enumeration calls nothing
    but [readdir].  When it succeeds, the existence of a file is checked
    exactly for the enumerated files, and the parser is invoked exactly for
    the enumerated files whose check passes: no file outside the enumeration
    is touched, and a missing file never reaches the parser.  The pipeline
    makes no other call: it never stats a path and never writes to the
    console. *)
Theorem parseDirectory_host_calls env dirPath extensions events files :
  V1.findFilesRecursively env dirPath extensions = MkEff events (Normal files) →
  (∀ event, event ∈ events → ∃ path, event = Readdir path)
  ∧ (∀ file,
       Access file ∈ trace (V1.parseDirectory env dirPath extensions)
       ↔ file ∈ files)
  ∧ (∀ file,
       AddSourceFileAtPath file
         ∈ trace (V1.parseDirectory env dirPath extensions)
       ↔ file ∈ files ∧ access env file = None)
  ∧ (∀ event,
       event ∈ trace (V1.parseDirectory env dirPath extensions) →
       ∃ path, event = Readdir path ∨ event = Access path
               ∨ event = AddSourceFileAtPath path).
Proof.
  intros Hrun.
  assert (∀ event, event ∈ events → ∃ path, event = Readdir path) as Hevents.
  { intros event Hevent.
    pose proof (traverse_only_readdir env extensions (readdir env dirPath)
                  dirPath []) as Hall.
    unfold V1.findFilesRecursively in Hrun. rewrite Hrun in Hall.
    rewrite Forall_forall in Hall. by apply Hall. }
  rewrite (parseDirectory_trace _ _ _ _ _ Hrun).
  split_and!; [done|..].
  - intros file. rewrite elem_of_app, elem_of_flat_map. split.
    + intros [Hin|(f & Hf & Hevent)].
      * by destruct (Hevents _ Hin).
      * by apply elem_of_file_trace in Hevent as [[= ->]|[? _]].
    + intros Hfile. right. exists file. split; [done|].
      apply elem_of_file_trace. by left.
  - intros file. rewrite elem_of_app, elem_of_flat_map. split.
    + intros [Hin|(f & Hf & Hevent)].
      * by destruct (Hevents _ Hin).
      * by apply elem_of_file_trace in Hevent as [?|[[= ->] Haccess]].
    + intros [Hfile Haccess]. right. exists file. split; [done|].
      apply elem_of_file_trace. by right.
  - intros event [Hin|Hin]%elem_of_app.
    + destruct (Hevents _ Hin) as [path ->]. exists path. by left.
    + apply elem_of_flat_map in Hin as (f & _ & Hevent).
      apply elem_of_file_trace in Hevent as [->|[-> _]]; exists f; auto.
Qed.

Lemma parseDirectory_host_calls_witness :
  Access "repo/broken.ts"
    ∈ trace (V1.parseDirectory Sample.host "repo" [".ts"; ".tsx"])
  ∧ AddSourceFileAtPath "repo/node_modules/index.ts"
      ∉ trace (V1.parseDirectory Sample.host "repo" [".ts"; ".tsx"]).
Proof.
  assert (V1.findFilesRecursively Sample.host "repo" [".ts"; ".tsx"]
          = MkEff [Readdir "repo"; Readdir "repo/src"]
              (Normal ["repo/a.ts"; "repo/broken.ts"; "repo/src/b.tsx"]))
    as Hrun.
  { vm_compute. reflexivity. }
  destruct (parseDirectory_host_calls Sample.host "repo" [".ts"; ".tsx"] _ _
              Hrun) as (_ & Haccess & Hparse & _).
  split.
  - apply Haccess. pick.
  - intros [Hin _]%Hparse.
    repeat (apply elem_of_cons in Hin as [Hin|Hin]; [discriminate|]).
    by apply elem_of_nil in Hin.
Defined.

(** X17: the result of the directory pipeline does not depend on the order
    in which the files are processed, nor on where the chunks are cut: the
    tasks of a chunk taken in any order leave the same mapping, and the
    chunked loop over the files leaves the mapping that one pass over all of
    them leaves. *)
Theorem processing_order_is_immaterial env files results :
  (∀ files',
     files ≡ₚ files' →
     completion (V1.process_chunk env files results)
       = completion (V1.process_chunk env files' results))
  ∧ completion (V1.chunk_loop env (length files) files 0 results)
    = completion (V1.process_chunk env files results).
Proof.
  split.
  - intros files' Hperm. rewrite !process_chunk_completion.
    by rewrite (record_all_Permutation _ _ _ _ Hperm).
  - rewrite chunk_loop_completion by (unfold V1.CONCURRENCY_LIMIT; lia).
    by rewrite drop_0, process_chunk_completion.
Qed.

(** ** The second copy's pipelines, and the command line *)

Lemma parseDirectory_v1_returns env dirPath extensions :
  ∃ results,
    completion (V1.parseDirectory env dirPath extensions) = Normal results.
Proof.
  destruct (V1.findFilesRecursively env dirPath extensions)
    as [events [files|error]] eqn:Hrun.
  - eexists. by eapply parseDirectory_completion.
  - eexists. unfold V1.parseDirectory, try_catch. by rewrite Hrun.
Qed.

Lemma parseDirectory_v2_stat_fails env dirPath extensions error :
  existsSync env dirPath = true →
  statSync env dirPath = Throw error →
  V2.parseDirectory env dirPath extensions
    = MkEff [ExistsSync dirPath; StatSync dirPath]
        (Normal {[ "error" :=
                     StringValue ("Failed to parse directory: "
                                  +:+ String_of error) ]}).
Proof.
  intros Hexists Hstat.
  unfold V2.parseDirectory, try_catch, host, mbind, Eff_bind; simpl.
  rewrite Hexists; simpl. by rewrite Hstat.
Qed.

Lemma parseDirectory_v2_returns env dirPath extensions :
  ∃ results,
    completion (V2.parseDirectory env dirPath extensions) = Normal results
    ∧ (top_level_envelope results ↔ ¬ is_a_directory env dirPath).
Proof.
  destruct (existsSync env dirPath) eqn:Hexists.
  - destruct (statSync env dirPath) as [stats|error] eqn:Hstat.
    + destruct (stats_isDirectory stats) eqn:Hdir.
      * assert (is_a_directory env dirPath) as Hvalid.
        { split; [done|]. by exists stats. }
        destruct (parseDirectory_v2_valid env dirPath extensions Hvalid)
          as (results & Hresults & Hshape).
        exists results. split; [done|]. split; [|done].
        intros Htop. by apply top_level_envelope_not_per_file in Htop.
      * eexists. rewrite parseDirectory_v2_invalid.
        -- split; [done|]. split; [|by eexists].
           intros _ (_ & stats' & Hstat' & Hdir'). congruence.
        -- right. by exists stats.
    + eexists. rewrite (parseDirectory_v2_stat_fails _ _ _ error) by done.
      split; [done|]. split; [|by eexists].
      intros _ (_ & stats' & Hstat' & _). congruence.
  - eexists. rewrite parseDirectory_v2_invalid by by left.
    split; [done|]. split; [|by eexists].
    intros _ (Hexists' & _). congruence.
Qed.

(** X18: the second copy of [parseTypeScriptFile] always returns.  For a
    path that does not exist it returns [{error: "File not found: <path>"}]
    and its only host call is [existsSync]; a failure of the parser is caught
    and returned as [{error: "Failed to parse <path>: <message>"}], and so is
    the [TypeError] of the walk when ts-morph lacks a guard the walk calls
    and the file has a statement that is kept. *)
Theorem parseTypeScriptFile_v2_never_throws env filePath :
  (∃ result, completion (V2.parseTypeScriptFile env filePath) = Normal result)
  ∧ (existsSync env filePath = false →
     V2.parseTypeScriptFile env filePath
       = MkEff [ExistsSync filePath]
           (Normal (ErrorEnvelope ("File not found: " +:+ filePath))))
  ∧ (∀ error,
       existsSync env filePath = true →
       addSourceFileAtPath env filePath = Throw error →
       V2.parseTypeScriptFile env filePath
         = MkEff [ExistsSync filePath; AddSourceFileAtPath filePath]
             (Normal (ErrorEnvelope ("Failed to parse " +:+ filePath +:+ ": "
                                     +:+ error_message error))))
  ∧ (∀ sourceFile error,
       existsSync env filePath = true →
       addSourceFileAtPath env filePath = Normal sourceFile →
       missing_guard env = Some error →
       kept (getStatements sourceFile) ≠ [] →
       V2.parseTypeScriptFile env filePath
         = MkEff [ExistsSync filePath; AddSourceFileAtPath filePath]
             (Normal (ErrorEnvelope ("Failed to parse " +:+ filePath +:+ ": "
                                     +:+ error_message error)))).
Proof.
  split_and!.
  - eexists. apply parseTypeScriptFile_v2_completion.
  - intros Hexists.
    unfold V2.parseTypeScriptFile, try_catch, host, mbind, Eff_bind; simpl.
    by rewrite Hexists.
  - intros error Hexists Hparse.
    unfold V2.parseTypeScriptFile, try_catch, host, mbind, Eff_bind; simpl.
    rewrite Hexists; simpl. by rewrite Hparse.
  - intros sourceFile error Hexists Hparse Hmissing Hkept.
    pose proof (createNodeFromSourceFile_v2_missing env error Hmissing
                  sourceFile) as Hwalk.
    destruct (kept (getStatements sourceFile)); [done|].
    unfold V2.parseTypeScriptFile, try_catch, host, mbind, Eff_bind; simpl.
    rewrite Hexists; simpl. rewrite Hparse; simpl. by rewrite Hwalk.
Qed.

Lemma parseTypeScriptFile_v2_never_throws_witness :
  V2.parseTypeScriptFile Sample.host "missing.ts"
    = MkEff [ExistsSync "missing.ts"]
        (Normal (ErrorEnvelope "File not found: missing.ts"))
  ∧ V2.parseTypeScriptFile Sample.host "repo/src/b.tsx"
    = MkEff [ExistsSync "repo/src/b.tsx"; AddSourceFileAtPath "repo/src/b.tsx"]
        (Normal (ErrorEnvelope
           "Failed to parse repo/src/b.tsx: ts_morph.Node.isNameableNode is not a function")).
Proof.
  destruct (parseTypeScriptFile_v2_never_throws Sample.host "missing.ts")
    as (_ & Hmissing & _).
  destruct (parseTypeScriptFile_v2_never_throws Sample.host "repo/src/b.tsx")
    as (_ & _ & _ & Hwalk).
  split; [exact (Hmissing eq_refl)|].
  by apply (Hwalk Sample.semicolon_file
              (Sample.not_a_function "isNameableNode")).
Defined.

(** X19: the second copy of [parseDirectory] always returns.  What it
    returns is a top-level error envelope exactly when its argument fails
    validation, that is, when it is not an existing directory that can be
    stat'ed; when [statSync] itself throws, the envelope is
    [{error: "Failed to parse directory: <error>"}] and nothing has been
    enumerated. *)
Theorem parseDirectory_v2_never_throws env dirPath extensions :
  (∃ results,
     completion (V2.parseDirectory env dirPath extensions) = Normal results
     ∧ (top_level_envelope results ↔ ¬ is_a_directory env dirPath))
  ∧ (∀ error,
       existsSync env dirPath = true →
       statSync env dirPath = Throw error →
       V2.parseDirectory env dirPath extensions
         = MkEff [ExistsSync dirPath; StatSync dirPath]
             (Normal {[ "error" :=
                          StringValue ("Failed to parse directory: "
                                       +:+ String_of error) ]})).
Proof.
  split; [apply parseDirectory_v2_returns|].
  intros error. apply parseDirectory_v2_stat_fails.
Qed.

Lemma parseDirectory_v2_never_throws_witness :
  ∃ results,
    completion (V2.parseDirectory Sample.host "repo" [".ts"; ".tsx"])
      = Normal results
    ∧ ¬ top_level_envelope results.
Proof.
  destruct (parseDirectory_v2_never_throws Sample.host "repo" [".ts"; ".tsx"])
    as [(results & Hresults & Htop) _].
  exists results. split; [exact Hresults|].
  intros Hresults'. apply Htop in Hresults'. apply Hresults'.
  split; [reflexivity|]. eexists. split; reflexivity.
Defined.

(** X20: [main] of the first copy.  Without an argument it prints a usage
    message to the error stream and exits with status 1, touching no file.
    With an argument it runs [parseDirectory] on the first one with the
    extensions [.ts] and [.tsx], ignores the others, and prints what
    [parseDirectory] returns; it then never exits with an error status, not
    even for a directory that does not exist, whose error entry it prints. *)
Theorem main_v1 env node script :
  CLI1.main env [] = MkEff [ConsoleError "Please provide a directory path"]
                       (Normal (ProcessExit 1))
  ∧ CLI1.main env [node; script]
    = MkEff [ConsoleError "Please provide a directory path"]
        (Normal (ProcessExit 1))
  ∧ ∀ dirPath others,
      ∃ results,
        completion (V1.parseDirectory env dirPath [".ts"; ".tsx"])
          = Normal results
        ∧ CLI1.main env (node :: script :: dirPath :: others)
          = MkEff (trace (V1.parseDirectory env dirPath [".ts"; ".tsx"]))
              (Normal (Logged (DirectoryDocument results))).
Proof.
  split_and!; [done..|].
  intros dirPath others.
  destruct (parseDirectory_v1_returns env dirPath [".ts"; ".tsx"])
    as (results & Hresults).
  exists results. split; [done|].
  unfold CLI1.main, try_catch; simpl.
  rewrite (bind_normal _ _ _ Hresults). simpl. by rewrite app_nil_r.
Qed.

Lemma main_v1_witness :
  CLI1.main Sample.host ["node"; "ast_ts.js"; "missing"]
    = MkEff [Readdir "missing"]
        (Normal (Logged (DirectoryDocument
           {[ "missing" :=
                FileValue (ErrorEnvelope
                  "Failed to parse directory missing: ENOENT: no such file or directory, scandir 'missing'") ]}))).
Proof.
  destruct (main_v1 Sample.host "node" "ast_ts.js") as (_ & _ & Hrun).
  destruct (Hrun "missing" []) as (results & Hresults & ->).
  rewrite (parseDirectory_v1_unreadable _ _ _
             (Sample.enoent "scandir" "missing")) in Hresults |- * by done.
  simpl in *. by injection Hresults as <-.
Defined.

(** X21: [main] of the second copy.  Without an argument it prints a usage
    message and exits with status 1.  Otherwise it stats its first argument:
    when [statSync] throws, as it does for a path that does not exist, it
    prints the error and exits with status 1 without running either
    pipeline; for a file it prints what [parseTypeScriptFile] returns; for a
    directory, what [parseDirectory] returns; for anything else it prints an
    error and exits with status 1. *)
Theorem main_v2 env node script targetPath others :
  CLI2.main env [node; script]
    = MkEff [ConsoleError "Usage: node ast_ts.js <file_or_directory_path>"]
        (Normal (ProcessExit 1))
  ∧ (∀ error,
       statSync env targetPath = Throw error →
       CLI2.main env (node :: script :: targetPath :: others)
         = MkEff [StatSync targetPath;
                  ConsoleError ("Error: " +:+ String_of error)]
             (Normal (ProcessExit 1)))
  ∧ (∀ stats,
       statSync env targetPath = Normal stats →
       stats_isFile stats = true →
       ∃ result,
         completion (V2.parseTypeScriptFile env targetPath) = Normal result
         ∧ completion (CLI2.main env (node :: script :: targetPath :: others))
           = Normal (Logged (FileDocument result)))
  ∧ (∀ stats,
       statSync env targetPath = Normal stats →
       stats_isFile stats = false → stats_isDirectory stats = true →
       ∃ results,
         completion (V2.parseDirectory env targetPath [".ts"; ".tsx"])
           = Normal results
         ∧ completion (CLI2.main env (node :: script :: targetPath :: others))
           = Normal (Logged (DirectoryDocument results)))
  ∧ (∀ stats,
       statSync env targetPath = Normal stats →
       stats_isFile stats = false → stats_isDirectory stats = false →
       CLI2.main env (node :: script :: targetPath :: others)
         = MkEff [StatSync targetPath;
                  ConsoleError ("Error: " +:+ targetPath
                                +:+ " is not a file or directory")]
             (Normal (ProcessExit 1))).
Proof.
  split_and!; [done|..].
  - intros error Hstat. unfold CLI2.main, try_catch, host; simpl.
    unfold mbind at 1, Eff_bind at 1; simpl. by rewrite Hstat.
  - intros stats Hstat Hfile.
    pose proof (parseTypeScriptFile_v2_completion env targetPath) as Hresult.
    eexists. split; [exact Hresult|].
    unfold CLI2.main; simpl.
    match goal with
    | |- completion (try_catch ?m _) = Normal ?outcome =>
        assert (completion m = Normal outcome) as Hm
    end.
    { unfold host. unfold mbind at 1, Eff_bind at 1; simpl.
      rewrite Hstat; simpl. rewrite Hfile.
      by rewrite (completion_bind _ _ _ Hresult). }
    by rewrite (try_catch_normal _ _ _ Hm).
  - intros stats Hstat Hfile Hdir.
    destruct (parseDirectory_v2_returns env targetPath [".ts"; ".tsx"])
      as (results & Hresults & _).
    exists results. split; [done|].
    unfold CLI2.main; simpl.
    match goal with
    | |- completion (try_catch ?m _) = _ =>
        assert (completion m = Normal (Logged (DirectoryDocument results)))
          as Hm
    end.
    { unfold host. unfold mbind at 1, Eff_bind at 1; simpl.
      rewrite Hstat; simpl. rewrite Hfile, Hdir.
      by rewrite (completion_bind _ _ _ Hresults). }
    by rewrite (try_catch_normal _ _ _ Hm).
  - intros stats Hstat Hfile Hdir.
    unfold CLI2.main, try_catch, host, console_error, mbind, Eff_bind; simpl.
    rewrite Hstat; simpl. by rewrite Hfile, Hdir.
Qed.

Lemma main_v2_witness :
  CLI2.main Sample.host ["node"; "ast_ts.js"; "missing"]
    = MkEff [StatSync "missing";
             ConsoleError ("Error: " +:+ String_of
                             (Sample.enoent "stat" "missing"))]
        (Normal (ProcessExit 1)).
Proof.
  exact (proj1 (proj2 (main_v2 Sample.host "node" "ast_ts.js" "missing" []))
           (Sample.enoent "stat" "missing") eq_refl).
Defined.
